(** * Prime pair sets (Project Euler 60): a shallow embedding of [main.py]

    The development follows the three functions of the source:
    [is_prime], [is_pairwise_concatable] and [main].  Python integers are
    [Z]; assertion failures and the other exceptions the code can raise
    are results of an error monad; the unbounded [while True] loop of
    [main] is unrolled with a fuel argument. *)

From Stdlib Require Import ZArith Zdivisibility Lia List Ascii String.
From Stdlib Require Import Decimal DecimalString DecimalFacts DecimalPos.
From stdpp Require Import base option list gmap strings.

#[local] Open Scope Z_scope.

(** ** Python values and exceptions *)

(** The fragment of Python's dynamic values needed to write
    [type(v) == int]: only [VInt] has type [int] (a [bool] is not an
    [int] for [type(...) ==]). *)
Inductive value :=
| VInt (z : Z)
| VBool (b : bool)
| VFloat (mantissa exponent : Z)
| VStr (s : string)
| VNone.

Inductive exn := AssertionError | KeyError | IndexError | ValueError.

Inductive outcome (A : Type) :=
| Ok (a : A)
| Raise (e : exn).
Arguments Ok {A} a.
Arguments Raise {A} e.

#[global] Instance outcome_ret : MRet outcome := fun A a => Ok a.
#[global] Instance outcome_bind : MBind outcome := fun A B f m =>
  match m with
  | Ok a => f a
  | Raise e => Raise e
  end.

(** ** Builtins used by the source *)

(** [range(lo, hi)] *)
Fixpoint range_from (lo : Z) (len : nat) : list Z :=
  match len with
  | O => []
  | S len' => lo :: range_from (lo + 1) len'
  end.

Definition range (lo hi : Z) : list Z := range_from lo (Z.to_nat (hi - lo)).

(** [str(x)] for an integer [x]. *)
Definition py_str (x : Z) : string := NilZero.string_of_int (Z.to_int x).

(** [int(s)] on the strings this program builds: decimal digits,
    possibly after a minus sign; a string of another shape is a
    [ValueError].  (Python also accepts a plus sign, surrounding blanks
    and underscores between digits; [str] of an integer has none.) *)
Definition py_int (s : string) : outcome Z :=
  match NilZero.int_of_string s with
  | Some d => Ok (Z.of_int d)
  | None => Raise ValueError
  end.

(** [sum(l)] *)
Definition sum (l : list Z) : Z := fold_left Z.add l 0.

(** [itertools.combinations(l, r)]: the [r]-element subsequences of [l],
    in lexicographic order of positions. *)
Fixpoint combinations {A} (l : list A) (r : nat) : list (list A) :=
  match r with
  | O => [[]]
  | S r' =>
      match l with
      | [] => []
      | a :: l' => map (cons a) (combinations l' r') ++ combinations l' r
      end
  end.

(** ** [is_prime] *)

(** The [for d in range(2, mid)] loop with its early [return False]. *)
Fixpoint trial_division (x : Z) (ds : list Z) : bool :=
  match ds with
  | [] => true
  | d :: ds' => if x mod d =? 0 then false else trial_division x ds'
  end.

(** [floor(sqrt(x))] is taken as the integer square root; the float
    square root of the source agrees with it as long as [x] is exactly
    representable (below 2^52). *)
Definition is_prime (v : value) : outcome bool :=
  match v with
  | VInt x =>
      if 0 <? x then
        let mid := Z.sqrt x + 1 in
        Ok (trial_division x (range 2 mid))
      else Raise AssertionError
  | _ => Raise AssertionError
  end.

(** ** [is_pairwise_concatable] *)

Definition is_pairwise_concatable (vx vy : value) : outcome bool :=
  match vx with
  | VInt x =>
      if 0 <? x then
        match vy with
        | VInt y =>
            if 0 <? y then
              let sx := py_str x in
              let sy := py_str y in
              a ← py_int (String.append sx sy);
              pa ← is_prime (VInt a);
              if pa : bool then
                b ← py_int (String.append sy sx);
                is_prime (VInt b)
              else Ok false
            else Raise AssertionError
        | _ => Raise AssertionError
        end
      else Raise AssertionError
  | _ => Raise AssertionError
  end.


(** ** The containers of [main] *)

(** [scipy.sparse.dok_matrix] with [dtype=bool]: a shape and the set of
    index pairs holding [True]. *)
Record dok_matrix := { shape : Z * Z; keys : gset (Z * Z) }.

Definition dok_new (r c : Z) : dok_matrix := {| shape := (r, c); keys := ∅ |}.

(** [resize] drops the entries outside the new shape when a dimension
    shrinks, and keeps every entry otherwise. *)
Definition dok_resize (m : dok_matrix) (r c : Z) : dok_matrix :=
  {| shape := (r, c);
     keys := if (r <? (shape m).1) || (c <? (shape m).2)
             then filter (fun ij : Z * Z => ij.1 < r ∧ ij.2 < c) (keys m)
             else keys m |}.

(** An index into a dimension of length [len]: negative indices count
    from the end, anything outside [-len, len) is an [IndexError]. *)
Definition norm_index (len i : Z) : outcome Z :=
  if (i <? - len) || (len <=? i) then Raise IndexError
  else Ok (if i <? 0 then i + len else i).

(** [m[i, j]] *)
Definition dok_get (m : dok_matrix) (i j : Z) : outcome bool :=
  i' ← norm_index (shape m).1 i;
  j' ← norm_index (shape m).2 j;
  Ok (bool_decide ((i', j') ∈ keys m)).

(** [m[i, j] = True] *)
Definition dok_set_true (m : dok_matrix) (i j : Z) : outcome dok_matrix :=
  i' ← norm_index (shape m).1 i;
  j' ← norm_index (shape m).2 j;
  Ok {| shape := shape m; keys := {[ (i', j') ]} ∪ keys m |}.

(** [prime_to_index] is iterated, so it is kept as the insertion-ordered
    list of its items. *)
Fixpoint od_get (d : list (Z * Z)) (key : Z) : outcome Z :=
  match d with
  | [] => Raise KeyError
  | (k, v) :: d' => if k =? key then Ok v else od_get d' key
  end.

Fixpoint od_set (d : list (Z * Z)) (key v : Z) : list (Z * Z) :=
  match d with
  | [] => [(key, v)]
  | (k, v0) :: d' =>
      if k =? key then (k, v) :: d' else (k, v0) :: od_set d' key v
  end.

(** [prime_degrees] is only read and updated by key. *)
Definition deg_get (d : gmap Z Z) (key : Z) : outcome Z :=
  match d !! key with
  | Some v => Ok v
  | None => Raise KeyError
  end.

(** [d[key] += 1] *)
Definition deg_incr (d : gmap Z Z) (key : Z) : outcome (gmap Z Z) :=
  v ← deg_get d key;
  Ok (<[key := v + 1]> d).

(** [l[i]] on a tuple *)
Definition item (l : list Z) (i : nat) : outcome Z :=
  match l !! i with
  | Some v => Ok v
  | None => Raise IndexError
  end.

(** ** [main] *)

(** The local variables of [main] that make up the graph. *)
Record graph := {
  prime_cands : list Z;
  prime_to_index : list (Z * Z);
  prime_degrees : gmap Z Z;
  n : Z;
  adj : dok_matrix
}.

Definition init_graph : graph :=
  let prime_to_index := [(3, 0)] in
  let n := Z.of_nat (length prime_to_index) in
  {| prime_cands := [3];
     prime_to_index := prime_to_index;
     prime_degrees := {[ 3 := 0 ]};
     n := n;
     adj := dok_new n n |}.

(** One round of [for q, j in prime_to_index.items()] while [x] is being
    added (lines 112-117). *)
Definition connect (x q j : Z) (s : dok_matrix * gmap Z Z)
  : outcome (dok_matrix * gmap Z Z) :=
  c ← is_pairwise_concatable (VInt x) (VInt q);
  if c : bool then
    a1 ← dok_set_true s.1 (-1) j;
    a2 ← dok_set_true a1 j (-1);
    d1 ← deg_incr s.2 q;
    d2 ← deg_incr d1 x;
    Ok (a2, d2)
  else Ok s.

Fixpoint connect_all (x : Z) (items : list (Z * Z)) (s : dok_matrix * gmap Z Z)
  : outcome (dok_matrix * gmap Z Z) :=
  match items with
  | [] => Ok s
  | (q, j) :: items' => s' ← connect x q j s; connect_all x items' s'
  end.

(** Adding the prime [x] to the graph (lines 108-119). *)
Definition add_vertex (x : Z) (g : graph) : outcome graph :=
  let n' := n g + 1 in
  let adj1 := dok_resize (adj g) n' n' in
  let deg1 := <[x := 0]> (prime_degrees g) in
  s ← connect_all x (prime_to_index g) (adj1, deg1);
  Ok {| prime_cands := prime_cands g ++ [x];
        prime_to_index := od_set (prime_to_index g) x (n' - 1);
        prime_degrees := s.2;
        n := n';
        adj := s.1 |}.

(** The primes that could join [x] (lines 128-132). *)
Fixpoint clique_cands (k i : Z) (g : graph) (items : list (Z * Z))
  : outcome (list Z) :=
  match items with
  | [] => Ok []
  | (q, j) :: items' =>
      dq ← deg_get (prime_degrees g) q;
      b ← (if k - 1 <=? dq then dok_get (adj g) j i else Ok false);
      rest ← clique_cands k i g items';
      Ok (if b : bool then q :: rest else rest)
  end.

(** [all(map(lambda pair: adj[...], combinations(p_subset, 2)))] *)
Fixpoint all_adjacent (g : graph) (pairs : list (list Z)) : outcome bool :=
  match pairs with
  | [] => Ok true
  | pr :: pairs' =>
      p0 ← item pr 0;
      i0 ← od_get (prime_to_index g) p0;
      p1 ← item pr 1;
      i1 ← od_get (prime_to_index g) p1;
      e ← dok_get (adj g) i0 i1;
      if e : bool then all_adjacent g pairs' else Ok false
  end.

(** The loop over [combinations(clique_cands, k - 1)] (lines 136-148),
    with [p_set_best] and [p_sum_best] carried as [best].  The first
    component of the result is the value returned from inside the loop,
    if any; the second component is the part of the iterator that the
    loop has not consumed when it stops. *)
Fixpoint clique_loop (g : graph) (x : Z) (subsets : list (list Z))
    (best : option (list Z * Z))
  : outcome (option (list Z * Z) * list (list Z)) :=
  match subsets with
  | [] => Ok (None, [])
  | p_subset :: rest =>
      let p_set := p_subset ++ [x] in
      ok ← all_adjacent g (combinations p_subset 2);
      if ok && match best with
               | None => true
               | Some (_, p_sum_best) => sum p_set <? p_sum_best
               end
      then
        let best' := Some (p_set, sum p_set) in
        match best' with
        | Some r => Ok (Some r, rest)
        | None => clique_loop g x rest best'
        end
      else clique_loop g x rest best
  end.

(** The search for a [k]-clique through [x] (lines 126-148). *)
Definition find_clique (k x : Z) (g : graph)
  : outcome (option (list Z * Z) * list (list Z)) :=
  dx ← deg_get (prime_degrees g) x;
  if k - 1 <=? dx then
    i ← od_get (prime_to_index g) x;
    cands ← clique_cands k i g (prime_to_index g);
    clique_loop g x (combinations cands (Z.to_nat (k - 1))) None
  else Ok (None, []).

(** One pass through the body of [while True] for the candidate [x]:
    either [main] returns, or the loop goes on with an updated graph. *)
Inductive progress := Return (r : list Z * Z) | Continue (g : graph).

Definition iteration (k x : Z) (g : graph) : outcome progress :=
  p ← is_prime (VInt x);
  if p : bool then
    g' ← add_vertex x g;
    r ← find_clique k x g';
    match r.1 with
    | Some res => Ok (Return res)
    | None => Ok (Continue g')
    end
  else Ok (Continue g).

(** [while True], unrolled [fuel] times; [None] when the fuel runs out. *)
Fixpoint main_loop (fuel : nat) (k : Z) (g : graph) (x : Z)
  : option (outcome (list Z * Z)) :=
  match fuel with
  | O => None
  | S fuel' =>
      match iteration k x g with
      | Raise e => Some (Raise e)
      | Ok (Return r) => Some (Ok r)
      | Ok (Continue g') => main_loop fuel' k g' (x + 1)
      end
  end.

Definition main (fuel : nat) (v : value) : option (outcome (list Z * Z)) :=
  match v with
  | VInt k =>
      if 1 <? k then main_loop fuel k init_graph 7
      else Some (Raise AssertionError)
  | _ => Some (Raise AssertionError)
  end.

(** The graph and the next candidate after [fuel] passes of the loop,
    provided none of them returned or raised. *)
Fixpoint advance (fuel : nat) (k : Z) (g : graph) (x : Z)
  : option (graph * Z) :=
  match fuel with
  | O => Some (g, x)
  | S fuel' =>
      match iteration k x g with
      | Ok (Continue g') => advance fuel' k g' (x + 1)
      | _ => None
      end
  end.

(** The pass that follows [fuel] silent passes of [main k], opened up:
    the candidate it tests, the primes that pass the filter of the
    search, what the search returns and how many combinations it leaves
    unread. *)
Definition search_after (k : Z) (fuel : nat)
  : option (Z * list Z * option (list Z * Z) * nat) :=
  match advance fuel k init_graph 7 with
  | Some (g, x) =>
      match add_vertex x g with
      | Ok g1 =>
          match (i ← od_get (prime_to_index g1) x;
                 clique_cands k i g1 (prime_to_index g1)),
                find_clique k x g1 with
          | Ok cands, Ok (r, rest) => Some (x, cands, r, length rest)
          | _, _ => None
          end
      | Raise _ => None
      end
  | None => None
  end.

(** ** Notions used in the statements *)

(** Both digit-string concatenations of [p] and [q], read back as
    integers, are prime. *)
Definition compatible (p q : Z) : Prop :=
  ∃ a b,
    py_int (String.append (py_str p) (py_str q)) = Ok a ∧
    py_int (String.append (py_str q) (py_str p)) = Ok b ∧
    Z.prime a ∧ Z.prime b.

(** The answer of [is_pairwise_concatable] as a boolean. *)
Definition concatable (x q : Z) : bool :=
  match is_pairwise_concatable (VInt x) (VInt q) with
  | Ok true => true
  | _ => false
  end.

(** [evolves k g x g' x']: the loop of [main k], started on graph [g]
    with candidate [x], gets to graph [g'] with candidate [x'] without
    returning. *)
Inductive evolves (k : Z) : graph → Z → graph → Z → Prop :=
| evolves_refl g x : evolves k g x g x
| evolves_step g x g1 g' x' :
    iteration k x g = Ok (Continue g1) →
    evolves k g1 (x + 1) g' x' →
    evolves k g x g' x'.

(** The items of [prime_to_index] for a list of candidates whose first
    element has index [i]. *)
Fixpoint index_items (i : Z) (l : list Z) : list (Z * Z) :=
  match l with
  | [] => []
  | p :: l' => (p, i) :: index_items (i + 1) l'
  end.

(** What holds of the graph whenever the loop is about to test the
    candidate [x]. *)
Record graph_inv (g : graph) (x : Z) : Prop := {
  inv_next : 2 <= x;
  inv_index : prime_to_index g = index_items 0 (prime_cands g);
  inv_n : n g = Z.of_nat (length (prime_cands g));
  inv_shape : shape (adj g) = (n g, n g);
  inv_prime : Forall Z.prime (prime_cands g);
  inv_below : Forall (fun p => p < x) (prime_cands g);
  inv_nodup : NoDup (prime_cands g);
  inv_degrees : ∀ v, is_Some (prime_degrees g !! v) ↔ v ∈ prime_cands g;
  inv_edges : ∀ i j, (i, j) ∈ keys (adj g) →
    0 <= i ∧ 0 <= j ∧ i ≠ j ∧
    ∃ p q, prime_cands g !! Z.to_nat i = Some p ∧
           prime_cands g !! Z.to_nat j = Some q ∧
           compatible p q
}.

(** What adding [x] against the existing candidates [qs] adds to the
    degree of [v]: one for every compatible [q] equal to [v], and one
    for every compatible [q] when [v] is [x] itself. *)
Fixpoint degree_gain (x : Z) (qs : list Z) (v : Z) : Z :=
  match qs with
  | [] => 0
  | q :: qs' =>
      (if concatable x q
       then (if decide (v = q) then 1 else 0) + (if decide (v = x) then 1 else 0)
       else 0) + degree_gain x qs' v
  end.

(** Structural append of digit sequences, most significant digit first. *)
Fixpoint uapp (d1 d2 : uint) : uint :=
  match d1 with
  | Nil => d2
  | D0 d => D0 (uapp d d2) | D1 d => D1 (uapp d d2)
  | D2 d => D2 (uapp d d2) | D3 d => D3 (uapp d d2)
  | D4 d => D4 (uapp d d2) | D5 d => D5 (uapp d d2)
  | D6 d => D6 (uapp d d2) | D7 d => D7 (uapp d d2)
  | D8 d => D8 (uapp d d2) | D9 d => D9 (uapp d d2)
  end.

(** Horner evaluation of a digit sequence on top of an accumulator. *)
Fixpoint uval (d : uint) (acc : N) : N :=
  match d with
  | Nil => acc
  | D0 d => uval d (10 * acc) | D1 d => uval d (1 + 10 * acc)
  | D2 d => uval d (2 + 10 * acc) | D3 d => uval d (3 + 10 * acc)
  | D4 d => uval d (4 + 10 * acc) | D5 d => uval d (5 + 10 * acc)
  | D6 d => uval d (6 + 10 * acc) | D7 d => uval d (7 + 10 * acc)
  | D8 d => uval d (8 + 10 * acc) | D9 d => uval d (9 + 10 * acc)
  end%N.

(** ** Notions used in the further properties *)

(** A set of pairwise compatible primes, as a duplicate-free list. *)
Definition is_clique (c : list Z) : Prop :=
  NoDup c ∧ ∀ p q, p ∈ c → q ∈ c → p ≠ q → compatible p q.

(** The candidates among [l] that [is_pairwise_concatable] accepts
    together with [p]. *)
Definition neighbours (p : Z) (l : list Z) : list Z :=
  filter (fun q => concatable p q = true) l.

(** The answer of [is_prime] as a boolean. *)
Definition is_prime_b (x : Z) : bool :=
  match is_prime (VInt x) with
  | Ok true => true
  | _ => false
  end.

(** A list whose elements grow with their position. *)
Definition increasing (l : list Z) : Prop :=
  ∀ i j p q, l !! i = Some p → l !! j = Some q → (i < j)%nat → p < q.

(** The adjacency matrix holds exactly the compatible pairs of distinct
    candidates. *)
Definition edges_exact (g : graph) : Prop :=
  ∀ i j p q,
    prime_cands g !! i = Some p → prime_cands g !! j = Some q → i ≠ j →
    ((Z.of_nat i, Z.of_nat j) ∈ keys (adj g) ↔ concatable p q = true).

(** Every candidate's degree is the number of its neighbours. *)
Definition degrees_exact (g : graph) : Prop :=
  ∀ p, p ∈ prime_cands g →
    prime_degrees g !! p =
    Some (Z.of_nat (length (neighbours p (prime_cands g)))).

(** * Properties *)

(** ** Trial division decides primality *)

Section TrialDivision.

Lemma elem_of_range lo hi d : d ∈ range lo hi ↔ lo <= d < hi.
Proof.
  unfold range.
  assert (H : ∀ len lo, d ∈ range_from lo len ↔ lo <= d < lo + Z.of_nat len).
  { induction len as [|len IH]; intros lo'; simpl range_from.
    - split; [intros Hd; inversion Hd|lia].
    - rewrite elem_of_cons, IH. lia. }
  rewrite H. lia.
Qed.

Lemma trial_division_true x ds :
  trial_division x ds = true ↔ ∀ d, d ∈ ds → x mod d ≠ 0.
Proof.
  induction ds as [|d ds IH]; simpl.
  - split; [|done]. intros _ d Hd. inversion Hd.
  - destruct (Z.eqb_spec (x mod d) 0) as [Hz|Hz].
    + split; [done|]. intros H. exfalso. apply (H d); [left|done].
    + rewrite IH. split.
      * intros H d' Hd'. apply elem_of_cons in Hd' as [->|Hd']; auto.
      * intros H d' Hd'. apply H. by right.
Qed.

(** A proper divisor has a cofactor, and one of the two is at most the
    square root. *)
Lemma small_divisor x n :
  1 < n < x → (n | x) → ∃ d, 2 <= d <= Z.sqrt x ∧ x mod d = 0.
Proof.
  intros Hn [m Hm].
  assert (Hx : 0 <= x) by lia.
  pose proof (Z.sqrt_spec x Hx) as Hs. cbv zeta in Hs.
  assert (1 < m) by nia.
  destruct (Z_le_gt_dec n (Z.sqrt x)) as [Hle|Hgt].
  - exists n. split; [lia|]. subst x. apply Z_mod_mult.
  - exists m. split.
    + split; [lia|]. destruct (Z_le_gt_dec m (Z.sqrt x)); [done|]. nia.
    + subst x. rewrite Z.mul_comm. apply Z_mod_mult.
Qed.

Lemma trial_division_prime x :
  2 <= x → trial_division x (range 2 (Z.sqrt x + 1)) = true ↔ Z.prime x.
Proof.
  intros Hx. rewrite trial_division_true. split.
  - intros H. split; [lia|].
    intros n Hn Hdiv.
    destruct (small_divisor x n Hn Hdiv) as (d & Hd & Hmod).
    apply (H d); [|done]. apply elem_of_range. lia.
  - intros Hp d Hd Hmod. apply elem_of_range in Hd.
    assert (Hs : Z.sqrt x < x) by (apply Z.sqrt_lt_lin; lia).
    destruct Hp as [_ Hp].
    apply (Hp d); [lia|].
    apply Z.mod_divide; [lia|done].
Qed.

Lemma is_prime_ok x : 0 < x → ∃ b, is_prime (VInt x) = Ok b.
Proof.
  intros Hx. unfold is_prime.
  destruct (Z.ltb_spec 0 x); [eauto|lia].
Qed.

Lemma is_prime_true_prime x : 2 <= x → is_prime (VInt x) = Ok true → Z.prime x.
Proof.
  intros Hx. unfold is_prime.
  destruct (Z.ltb_spec 0 x); [|lia].
  intros [= Ht]. by apply trial_division_prime.
Qed.

End TrialDivision.

(** ** Decimal strings *)

Section DecimalConcat.

Lemma string_of_uapp d1 d2 :
  NilEmpty.string_of_uint (uapp d1 d2) =
  String.append (NilEmpty.string_of_uint d1) (NilEmpty.string_of_uint d2).
Proof.
  induction d1; cbn [uapp NilEmpty.string_of_uint];
    [reflexivity|..]; rewrite IHd1; reflexivity.
Qed.

Lemma uval_of_uint_acc d acc :
  Npos (Pos.of_uint_acc d acc) = uval d (Npos acc).
Proof.
  revert acc. induction d; intros acc; simpl; [done|..]; by rewrite IHd.
Qed.

Lemma uval_of_uint d : Pos.of_uint d = uval d 0%N.
Proof.
  induction d; simpl; [done|done|..]; by rewrite uval_of_uint_acc.
Qed.

Lemma uval_acc d acc :
  (uval d acc = uval d 0 + acc * 10 ^ N.of_nat (nb_digits d))%N.
Proof.
  revert acc. induction d; intros acc; cbn [uval nb_digits];
    [simpl; lia|..];
    rewrite Nat2N.inj_succ, N.pow_succ_r';
    match goal with
    | |- uval d ?a = (uval d ?b + _)%N => rewrite (IHd a), (IHd b)
    end; lia.
Qed.

Lemma uval_uapp d1 d2 acc : uval (uapp d1 d2) acc = uval d2 (uval d1 acc).
Proof. revert acc. induction d1; intros acc; simpl; auto. Qed.

Lemma nb_digits_length d :
  nb_digits d = String.length (NilEmpty.string_of_uint d).
Proof. induction d; simpl; congruence. Qed.

Lemma py_str_pos p : py_str (Zpos p) = NilEmpty.string_of_uint (Pos.to_uint p).
Proof.
  unfold py_str. simpl.
  pose proof (DecimalPos.Unsigned.to_uint_nonnil p).
  by destruct (Pos.to_uint p).
Qed.

Lemma py_int_digits d :
  d ≠ Nil → py_int (NilEmpty.string_of_uint d) = Ok (Z.of_N (Pos.of_uint d)).
Proof.
  intros Hd. unfold py_int.
  replace (NilEmpty.string_of_uint d) with (NilZero.string_of_int (Pos d))
    by (by destruct d).
  rewrite NilZero.isi; [done|congruence|done].
Qed.

(** [int(str(x) + str(y))] shifts [x] left by the number of digits of
    [y] and adds [y]. *)
Lemma py_int_concat x y :
  0 < x → 0 < y →
  py_int (String.append (py_str x) (py_str y)) =
  Ok (x * 10 ^ Z.of_nat (String.length (py_str y)) + y).
Proof.
  intros Hx Hy.
  destruct x as [|p|p]; [lia| |lia]. destruct y as [|q|q]; [lia| |lia].
  rewrite !py_str_pos, <- string_of_uapp.
  rewrite py_int_digits.
  - f_equal. rewrite uval_of_uint, uval_uapp, uval_acc, nb_digits_length.
    rewrite <- !uval_of_uint, !DecimalPos.Unsigned.of_to.
    rewrite N2Z.inj_add, N2Z.inj_mul, N2Z.inj_pow, nat_N_Z. simpl. lia.
  - pose proof (DecimalPos.Unsigned.to_uint_nonnil p).
    by destruct (Pos.to_uint p).
Qed.

Lemma py_int_concat_ge x y :
  0 < x → 0 < y →
  ∃ c, py_int (String.append (py_str x) (py_str y)) = Ok c ∧ 2 <= c.
Proof.
  intros Hx Hy. eexists. split; [by apply py_int_concat|].
  assert (0 < 10 ^ Z.of_nat (String.length (py_str y)))
    by (apply Z.pow_pos_nonneg; lia).
  nia.
Qed.

End DecimalConcat.

(** C6: on 2..100000 [is_prime] answers [True] exactly on the primes, and
    its answer is that of trial division by every integer from 2 up to
    and including the integer square root. *)
Theorem is_prime_agrees_with_primality (x : Z) :
  2 <= x <= 100000 →
  (is_prime (VInt x) = Ok true ↔ Z.prime x) ∧
  (is_prime (VInt x) = Ok false ↔ ¬ Z.prime x) ∧
  (is_prime (VInt x) = Ok true ↔
     ∀ d, 2 <= d <= Z.sqrt x → x mod d ≠ 0).
Proof.
  intros Hx. unfold is_prime.
  destruct (Z.ltb_spec 0 x); [|lia].
  pose proof (trial_division_prime x (proj1 Hx)) as Hp.
  pose proof (trial_division_true x (range 2 (Z.sqrt x + 1))) as Ht.
  destruct (trial_division x (range 2 (Z.sqrt x + 1))) eqn:E.
  - split; [|split].
    + split; [intros _; by apply Hp|done].
    + split; [done|]. intros Hn. exfalso. apply Hn. by apply Hp.
    + split; [|done]. intros _ d Hd. apply Ht; [done|].
      apply elem_of_range. lia.
  - split; [|split].
    + split; [done|]. intros Hpr. apply Hp in Hpr. done.
    + split; [|done]. intros _ Hpr. apply Hp in Hpr. done.
    + split; [done|]. intros Hall. exfalso.
      assert (false = true); [|done]. apply Ht.
      intros d Hd. apply Hall. apply elem_of_range in Hd. lia.
Qed.

Lemma is_prime_agrees_with_primality_witness :
  (is_prime (VInt 97) = Ok true ↔ Z.prime 97) ∧
  (is_prime (VInt 97) = Ok false ↔ ¬ Z.prime 97) ∧
  (is_prime (VInt 97) = Ok true ↔
     ∀ d, 2 <= d <= Z.sqrt 97 → 97 mod d ≠ 0).
Proof. apply (is_prime_agrees_with_primality 97). lia. Defined.

(** C10: the input 1 passes the assertion and the loop ranges over the
    empty interval, so [is_prime(1)] is [True] although 1 is not prime. *)
Theorem is_prime_one :
  is_prime (VInt 1) = Ok true ∧ range 2 (Z.sqrt 1 + 1) = [] ∧ ¬ Z.prime 1.
Proof.
  split; [reflexivity|]. split; [reflexivity|].
  intros [H _]. lia.
Qed.

(** ** The compatibility predicate *)

Section Concatable.

(** On positive arguments the assertions pass and the result is the
    conjunction of the two primality tests. *)
Lemma is_pairwise_concatable_pos x y :
  0 < x → 0 < y →
  ∃ a b pa pb,
    py_int (String.append (py_str x) (py_str y)) = Ok a ∧
    py_int (String.append (py_str y) (py_str x)) = Ok b ∧
    2 <= a ∧ 2 <= b ∧
    is_prime (VInt a) = Ok pa ∧ is_prime (VInt b) = Ok pb ∧
    is_pairwise_concatable (VInt x) (VInt y) = Ok (pa && pb).
Proof.
  intros Hx Hy.
  destruct (py_int_concat_ge x y Hx Hy) as (a & Ha & Ha2).
  destruct (py_int_concat_ge y x Hy Hx) as (b & Hb & Hb2).
  destruct (is_prime_ok a) as [pa Hpa]; [lia|].
  destruct (is_prime_ok b) as [pb Hpb]; [lia|].
  exists a, b, pa, pb. repeat (split; [done|]).
  unfold is_pairwise_concatable.
  destruct (Z.ltb_spec 0 x); [|lia]. destruct (Z.ltb_spec 0 y); [|lia].
  cbv zeta. rewrite Ha. cbn [mbind outcome_bind]. rewrite Hpa.
  destruct pa; cbn [andb]; [|done].
  rewrite Hb. cbn [mbind outcome_bind]. by rewrite Hpb.
Qed.

Lemma concatable_compatible x y :
  0 < x → 0 < y → concatable x y = true → compatible x y.
Proof.
  intros Hx Hy. unfold concatable.
  destruct (is_pairwise_concatable_pos x y Hx Hy)
    as (a & b & pa & pb & Ha & Hb & Ha2 & Hb2 & Hpa & Hpb & ->).
  destruct pa, pb; try done. intros _.
  exists a, b. repeat (split; [done|]).
  split; by apply is_prime_true_prime.
Qed.

Lemma compatible_sym p q : compatible p q → compatible q p.
Proof. intros (a & b & Ha & Hb & Hpa & Hpb). by exists b, a. Qed.

End Concatable.



(** C5: [main] raises on [k <= 1] and on a [k] that is not an [int]
    before the loop runs at all (also with no fuel), and [is_prime] and
    [is_pairwise_concatable] raise on a non-positive integer. *)
Theorem invalid_input_raises :
  (∀ fuel k, k <= 1 → main fuel (VInt k) = Some (Raise AssertionError)) ∧
  (∀ fuel v, (∀ z, v ≠ VInt z) → main fuel v = Some (Raise AssertionError)) ∧
  (∀ x, x <= 0 → is_prime (VInt x) = Raise AssertionError) ∧
  (∀ x y, x <= 0 ∨ y <= 0 →
     is_pairwise_concatable (VInt x) (VInt y) = Raise AssertionError).
Proof.
  repeat split.
  - intros fuel k Hk. unfold main. by destruct (Z.ltb_spec 1 k); [lia|].
  - intros fuel v Hv. destruct v; try done. by destruct (Hv z).
  - intros x Hx. unfold is_prime. by destruct (Z.ltb_spec 0 x); [lia|].
  - intros x y Hxy. unfold is_pairwise_concatable.
    destruct (Z.ltb_spec 0 x); [|done].
    destruct (Z.ltb_spec 0 y); [lia|done].
Qed.

Lemma invalid_input_raises_witness :
  main 0 (VInt 1) = Some (Raise AssertionError) ∧
  main 0 (VStr "4") = Some (Raise AssertionError) ∧
  is_prime (VInt 0) = Raise AssertionError ∧
  is_pairwise_concatable (VInt 3) (VInt (-7)) = Raise AssertionError.
Proof.
  destruct invalid_input_raises as (Hk & Hv & Hp & Hc).
  split; [apply (Hk 0%nat 1); lia|].
  split; [apply (Hv 0%nat (VStr "4")); discriminate|].
  split; [apply (Hp 0); lia|].
  apply (Hc 3 (-7)). right. lia.
Defined.

(** ** The error monad and the containers *)

Section Containers.

Lemma bind_ok {A B} (m : outcome A) (f : A → outcome B) r :
  m ≫= f = Ok r → ∃ a, m = Ok a ∧ f a = Ok r.
Proof. destruct m as [a|e]; [eauto|done]. Qed.

Lemma norm_index_ok len i i' :
  norm_index len i = Ok i' → 0 <= i' < len ∧ (i' = i ∨ i' = i + len).
Proof.
  unfold norm_index.
  destruct (Z.ltb_spec i (- len)), (Z.leb_spec len i); try done.
  cbn [orb]. intros [= <-]. destruct (Z.ltb_spec i 0); lia.
Qed.

Lemma norm_index_in_range len i : 0 <= i < len → norm_index len i = Ok i.
Proof.
  intros Hi. unfold norm_index.
  destruct (Z.ltb_spec i (- len)), (Z.leb_spec len i); try lia.
  cbn [orb]. destruct (Z.ltb_spec i 0); [lia|done].
Qed.

Lemma norm_index_last len i' :
  norm_index len (-1) = Ok i' → 0 < len ∧ i' = len - 1.
Proof. intros H. apply norm_index_ok in H. lia. Qed.

Lemma dok_get_true m i j N :
  shape m = (N, N) → 0 <= i < N → 0 <= j < N →
  dok_get m i j = Ok true → (i, j) ∈ keys m.
Proof.
  intros Hs Hi Hj. unfold dok_get. rewrite Hs. cbn [fst snd].
  rewrite !norm_index_in_range by done. cbn [mbind outcome_bind].
  intros [= H]. by apply bool_decide_eq_true in H.
Qed.

Lemma dok_resize_grow m N :
  shape m = (N, N) → keys (dok_resize m (N + 1) (N + 1)) = keys m.
Proof.
  intros Hs. unfold dok_resize. rewrite Hs. cbn [fst snd keys].
  by destruct (Z.ltb_spec (N + 1) N); [lia|].
Qed.

Lemma index_items_fst i l : (index_items i l).*1 = l.
Proof. revert i. induction l as [|p l IH]; intros i; simpl; by f_equal. Qed.

Lemma elem_of_index_items i l q j :
  (q, j) ∈ index_items i l →
  i <= j < i + Z.of_nat (length l) ∧ l !! Z.to_nat (j - i) = Some q.
Proof.
  revert i. induction l as [|p l IH]; intros i; simpl.
  - intros H. inversion H.
  - intros [[= -> ->]|H]%elem_of_cons.
    + split; [lia|]. by rewrite Z.sub_diag.
    + apply IH in H as [Hj Hl]. split; [lia|].
      replace (Z.to_nat (j - i)) with (S (Z.to_nat (j - (i + 1)))) by lia.
      done.
Qed.

Lemma od_get_elem d p v : od_get d p = Ok v → (p, v) ∈ d.
Proof.
  induction d as [|[k w] d IH]; simpl; [done|].
  destruct (Z.eqb_spec k p) as [->|Hne].
  - intros [= ->]. by left.
  - intros H. right. auto.
Qed.

Lemma od_get_index_items l p v :
  od_get (index_items 0 l) p = Ok v →
  0 <= v < Z.of_nat (length l) ∧ l !! Z.to_nat v = Some p.
Proof.
  intros H%od_get_elem%elem_of_index_items.
  by rewrite Z.sub_0_r in H.
Qed.

Lemma index_items_snoc i l p :
  index_items i (l ++ [p]) = index_items i l ++ [(p, i + Z.of_nat (length l))].
Proof.
  revert i. induction l as [|q l IH]; intros i; simpl.
  - by rewrite Z.add_0_r.
  - rewrite IH.
    replace (i + 1 + Z.of_nat (length l)) with (i + Z.of_nat (S (length l)))
      by lia.
    done.
Qed.

Lemma od_set_fresh d p v : p ∉ d.*1 → od_set d p v = d ++ [(p, v)].
Proof.
  induction d as [|[k w] d IH]; simpl; [done|].
  intros Hp. apply not_elem_of_cons in Hp as [Hne Hp].
  destruct (Z.eqb_spec k p); [done|]. by rewrite IH.
Qed.

Lemma deg_incr_ok d q d' :
  deg_incr d q = Ok d' → ∃ v, d !! q = Some v ∧ d' = <[q := v + 1]> d.
Proof.
  unfold deg_incr, deg_get. destruct (d !! q) as [v|]; [|done].
  cbn [mbind outcome_bind]. intros [= <-]. eauto.
Qed.

Lemma deg_incr_lookup d q d' v :
  deg_incr d q = Ok d' →
  d' !! v = (fun dv => dv + (if decide (v = q) then 1 else 0)) <$> d !! v.
Proof.
  intros (dq & Hq & ->)%deg_incr_ok.
  destruct (decide (v = q)) as [->|Hne].
  - by rewrite lookup_insert_eq, Hq.
  - rewrite lookup_insert_ne by done.
    destruct (d !! v); simpl; [|done]. f_equal. lia.
Qed.

End Containers.

(** ** Adding a vertex *)

Section AddVertex.

Lemma dok_set_true_ok a i j a' N :
  shape a = (N, N) → dok_set_true a i j = Ok a' →
  ∃ i' j', norm_index N i = Ok i' ∧ norm_index N j = Ok j' ∧
           shape a' = (N, N) ∧ keys a' = {[(i', j')]} ∪ keys a.
Proof.
  intros Hs. unfold dok_set_true. rewrite Hs. cbn [fst snd].
  intros (i' & Hi & (j' & Hj & [= <-])%bind_ok)%bind_ok.
  by exists i', j'.
Qed.

Lemma fmap_add_add (o : option Z) (b c : Z) :
  (fun dv => dv + c) <$> ((fun dv => dv + b) <$> o) =
  (fun dv => dv + (b + c)) <$> o.
Proof. destruct o; simpl; [f_equal; lia|done]. Qed.

Lemma connect_spec x q j a d a' d' N :
  shape a = (N, N) → connect x q j (a, d) = Ok (a', d') →
  shape a' = (N, N) ∧
  (∀ v, d' !! v = (fun dv => dv + degree_gain x [q] v) <$> d !! v) ∧
  if concatable x q
  then ∃ j', norm_index N j = Ok j' ∧ 0 < N ∧
             keys a' = {[(j', N - 1)]} ∪ ({[(N - 1, j')]} ∪ keys a)
  else a' = a.
Proof.
  intros Hs. unfold connect, concatable. cbn [fst snd degree_gain].
  unfold concatable.
  destruct (is_pairwise_concatable (VInt x) (VInt q)) as [[|]|e];
    cbn [mbind outcome_bind]; [| |done].
  - intros (a1 & Ha1 & (a2 & Ha2 & (d1 & Hd1 & (d2 & Hd2 & [= <- <-])
      %bind_ok)%bind_ok)%bind_ok)%bind_ok.
    destruct (dok_set_true_ok _ _ _ _ _ Hs Ha1)
      as (m & j' & Hm & Hj & Hs1 & Hk1).
    destruct (dok_set_true_ok _ _ _ _ _ Hs1 Ha2)
      as (j'' & m' & Hj' & Hm' & Hs2 & Hk2).
    assert (j'' = j') by congruence. assert (m' = m) by congruence.
    subst j'' m'. apply norm_index_last in Hm as [HN ->].
    split; [done|]. split.
    + intros v. rewrite (deg_incr_lookup _ _ _ v Hd2).
      rewrite (deg_incr_lookup _ _ _ v Hd1), fmap_add_add.
      by rewrite Z.add_0_r.
    + exists j'. by rewrite Hk2, Hk1.
  - intros [= <- <-]. split; [done|]. split; [|done].
    intros v. destruct (d !! v); simpl; [f_equal; lia|done].
Qed.

Lemma degree_gain_cons x q qs v :
  degree_gain x (q :: qs) v = degree_gain x [q] v + degree_gain x qs v.
Proof. simpl. lia. Qed.

Lemma connect_all_spec x items a d a' d' N :
  shape a = (N, N) → connect_all x items (a, d) = Ok (a', d') →
  shape a' = (N, N) ∧ keys a ⊆ keys a' ∧
  (∀ v, d' !! v = (fun dv => dv + degree_gain x items.*1 v) <$> d !! v) ∧
  (∀ ij, ij ∈ keys a' → ij ∈ keys a ∨
     ∃ q j j', (q, j) ∈ items ∧ concatable x q = true ∧
               norm_index N j = Ok j' ∧ 0 < N ∧
               (ij = (j', N - 1) ∨ ij = (N - 1, j'))).
Proof.
  revert a d. induction items as [|[q j] items IH]; intros a d Hs.
  - simpl. intros [= <- <-].
    split; [done|]. split; [done|]. split; [|by left].
    intros v. destruct (d !! v); simpl; [f_equal; lia|done].
  - cbn [connect_all]. intros ([a1 d1] & H1 & Hrest)%bind_ok.
    destruct (connect_spec _ _ _ _ _ _ _ _ Hs H1) as (Hs1 & Hd1 & Hk1).
    destruct (IH _ _ Hs1 Hrest) as (Hs' & Hsub & Hd' & Hnew).
    split; [done|].
    assert (Hsub1 : keys a ⊆ keys a1).
    { destruct (concatable x q); [|by subst].
      destruct Hk1 as (j' & _ & _ & ->).
      intros ij Hij. apply elem_of_union_r. by apply elem_of_union_r. }
    split; [by etrans|]. split.
    + intros v. rewrite Hd', Hd1, fmap_add_add.
      change (((q, j) :: items).*1) with (q :: items.*1).
      by rewrite (degree_gain_cons x q items.*1 v).
    + intros ij Hij. destruct (Hnew ij Hij) as [Hold|Hnew'].
      * destruct (concatable x q) eqn:Hc; [|subst; by left].
        destruct Hk1 as (j' & Hj & HN & Hk1). rewrite Hk1 in Hold.
        apply elem_of_union in Hold as [->%elem_of_singleton|Hold].
        { right. exists q, j, j'. split; [by left|]. auto. }
        apply elem_of_union in Hold as [->%elem_of_singleton|Hold].
        { right. exists q, j, j'. split; [by left|]. auto. }
        by left.
      * right. destruct Hnew' as (q' & j0 & j' & Hin & Hrest').
        exists q', j0, j'. split; [by right|done].
Qed.

(** The degrees after [add_vertex], for any graph. *)
Lemma add_vertex_degrees x g g1 v :
  add_vertex x g = Ok g1 →
  prime_degrees g1 !! v =
  (fun dv => dv + degree_gain x (prime_to_index g).*1 v) <$>
    (<[x := 0]> (prime_degrees g)) !! v.
Proof.
  unfold add_vertex. cbv zeta.
  intros ([a' d'] & Hc & [= <-])%bind_ok. cbn [prime_degrees snd].
  destruct (dok_resize (adj g) (n g + 1) (n g + 1)) as [sh ks] eqn:Hr.
  assert (Hs : shape {| shape := sh; keys := ks |} = (n g + 1, n g + 1)).
  { rewrite <- Hr. done. }
  by destruct (connect_all_spec _ _ _ _ _ _ _ Hs Hc) as (_ & _ & Hd & _).
Qed.

Lemma degree_gain_other x qs v :
  v ≠ x → v ∉ qs → degree_gain x qs v = 0.
Proof.
  intros Hx. induction qs as [|q qs IH]; simpl; [done|].
  intros [Hq Hv]%not_elem_of_cons. rewrite IH by done.
  destruct (concatable x q); [|done].
  destruct (decide (v = q)); [done|]. destruct (decide (v = x)); done.
Qed.

Lemma degree_gain_member x qs v :
  v ≠ x → NoDup qs → v ∈ qs →
  degree_gain x qs v = if concatable x v then 1 else 0.
Proof.
  intros Hx. induction qs as [|q qs IH]; simpl.
  - intros _ Hv. inversion Hv.
  - intros [Hq Hnd]%NoDup_cons [->|Hv]%elem_of_cons.
    + rewrite degree_gain_other by done.
      destruct (concatable x q); [|done].
      destruct (decide (q = q)); [|done]. destruct (decide (q = x)); done.
    + rewrite IH by done.
      destruct (decide (v = q)) as [->|]; [done|].
      destruct (decide (v = x)); [done|].
      destruct (concatable x q); lia.
Qed.

Lemma degree_gain_self x qs :
  x ∉ qs →
  degree_gain x qs x =
  Z.of_nat (length (filter (fun q => concatable x q = true) qs)).
Proof.
  induction qs as [|q qs IH]; simpl; [done|].
  intros [Hq Hx]%not_elem_of_cons. rewrite IH by done.
  rewrite filter_cons. destruct (decide (x = q)); [done|].
  destruct (decide (x = x)); [|done].
  case_decide as Hc.
  - rewrite Hc. simpl length. lia.
  - destruct (concatable x q); [done|lia].
Qed.

End AddVertex.

(** ** The invariant of the loop *)

Section Invariant.

Lemma init_graph_inv : graph_inv init_graph 7.
Proof.
  split.
  - lia.
  - done.
  - done.
  - done.
  - apply Forall_singleton. by apply is_prime_true_prime.
  - apply Forall_singleton. lia.
  - apply NoDup_singleton.
  - intros v. cbn. split.
    + intros [d [<- _]%lookup_singleton_Some]. by left.
    + intros ->%list_elem_of_singleton. by rewrite lookup_singleton_eq.
  - intros i j Hij. cbn in Hij. by apply not_elem_of_empty in Hij.
Qed.

Lemma graph_inv_next g x : graph_inv g x → graph_inv g (x + 1).
Proof.
  intros [Hnext Hidx Hn Hshape Hprime Hbelow Hnd Hdeg Hedges].
  split; try done; [lia|].
  eapply Forall_impl; [exact Hbelow|]. intros p Hp. cbn in Hp |- *. lia.
Qed.

Lemma graph_inv_fresh g x : graph_inv g x → x ∉ prime_cands g.
Proof.
  intros Hinv Hx.
  pose proof (proj1 (Forall_forall _ _) (inv_below _ _ Hinv) x Hx) as Hlt.
  cbn in Hlt. lia.
Qed.

Lemma add_vertex_inv x g g1 :
  graph_inv g x → Z.prime x → add_vertex x g = Ok g1 →
  graph_inv g1 (x + 1) ∧
  keys (adj g) ⊆ keys (adj g1) ∧
  prime_cands g1 = prime_cands g ++ [x].
Proof.
  intros Hinv Hpx. pose proof (graph_inv_fresh _ _ Hinv) as Hfresh.
  destruct Hinv as [Hnext Hidx Hn Hshape Hprime Hbelow Hnd Hdeg Hedges].
  unfold add_vertex. cbv zeta.
  intros ([a' d'] & Hc & [= <-])%bind_ok. cbn [fst snd].
  pose proof (dok_resize_grow _ _ Hshape) as Hkeys.
  assert (Hs : shape (dok_resize (adj g) (n g + 1) (n g + 1))
               = (n g + 1, n g + 1)) by done.
  destruct (connect_all_spec _ _ _ _ _ _ _ Hs Hc)
    as (Hs' & Hsub & Hd' & Hnew).
  rewrite Hkeys in Hsub.
  split; [|done].
  split; cbn [prime_cands prime_to_index prime_degrees n adj].
  - lia.
  - rewrite Hidx, od_set_fresh by (by rewrite index_items_fst).
    rewrite index_items_snoc. do 3 f_equal. lia.
  - rewrite length_app. simpl. lia.
  - done.
  - apply Forall_app. split; [done|]. by constructor.
  - apply Forall_app. split.
    + eapply Forall_impl; [exact Hbelow|]. intros p Hp. cbn in Hp |- *. lia.
    + constructor; [lia|constructor].
  - apply NoDup_app. split; [done|]. split; [|apply NoDup_singleton].
    intros p Hp ->%list_elem_of_singleton. done.
  - intros v. rewrite Hd', fmap_is_Some, elem_of_app, list_elem_of_singleton.
    destruct (decide (v = x)) as [->|Hne].
    + rewrite lookup_insert_eq. split; [by right|by eauto].
    + rewrite lookup_insert_ne, Hdeg by done. tauto.
  - intros i j Hij. destruct (Hnew _ Hij) as [Hold|Hadd].
    + rewrite Hkeys in Hold.
      destruct (Hedges i j Hold) as (Hi & Hj & Hne & p & q & Hp & Hq & Hpq).
      repeat (split; [done|]). exists p, q.
      split; [by apply lookup_app_l_Some|].
      split; [by apply lookup_app_l_Some|done].
    + destruct Hadd as (q & j0 & j' & Hin & Hconc & Hnorm & HN & Hcase).
      rewrite Hidx in Hin. apply elem_of_index_items in Hin as [Hr Hq].
      rewrite Z.sub_0_r in Hq. rewrite <- Hn in Hr.
      rewrite norm_index_in_range in Hnorm by lia.
      injection Hnorm as <-.
      assert (Hx : (prime_cands g ++ [x]) !! Z.to_nat (n g) = Some x).
      { rewrite Hn, Nat2Z.id. by apply list_lookup_middle. }
      assert (Hq' : (prime_cands g ++ [x]) !! Z.to_nat j0 = Some q)
        by (by apply lookup_app_l_Some).
      assert (Hqp : Z.prime q).
      { eapply Forall_forall; [apply Hprime|].
        apply list_elem_of_lookup. eauto. }
      apply Z.prime_ge_2 in Hqp. apply Z.prime_ge_2 in Hpx.
      assert (Hcomp : compatible x q)
        by (apply concatable_compatible; [lia|lia|done]).
      replace (n g + 1 - 1) with (n g) in Hcase by lia.
      destruct Hcase as [[= -> ->]|[= -> ->]].
      * split; [lia|]. split; [lia|]. split; [lia|].
        exists q, x. by split; [|split; [|apply compatible_sym]].
      * split; [lia|]. split; [lia|]. split; [lia|].
        by exists x, q.
Qed.

Lemma iteration_continue k x g g' :
  iteration k x g = Ok (Continue g') →
  (is_prime (VInt x) = Ok false ∧ g' = g) ∨
  (is_prime (VInt x) = Ok true ∧ add_vertex x g = Ok g').
Proof.
  unfold iteration. intros ([|] & Hp & H)%bind_ok.
  - right. split; [done|].
    apply bind_ok in H as (g1 & Hadd & (r & Hr & H)%bind_ok).
    destruct (r.1); simplify_eq. done.
  - left. split; [done|]. by injection H.
Qed.

Lemma iteration_inv k x g g' :
  graph_inv g x → iteration k x g = Ok (Continue g') →
  graph_inv g' (x + 1) ∧ keys (adj g) ⊆ keys (adj g').
Proof.
  intros Hinv [[_ ->]|[Hp Hadd]]%iteration_continue.
  - split; [by apply graph_inv_next|done].
  - apply is_prime_true_prime in Hp; [|by destruct Hinv].
    destruct (add_vertex_inv _ _ _ Hinv Hp Hadd) as (? & ? & _). done.
Qed.

Lemma evolves_inv k g x g' x' :
  graph_inv g x → evolves k g x g' x' →
  graph_inv g' x' ∧ keys (adj g) ⊆ keys (adj g').
Proof.
  intros Hinv Hev. induction Hev as [|g x g1 g' x' Hit Hev IH]; [done|].
  destruct (iteration_inv _ _ _ _ Hinv Hit) as [Hinv1 Hsub].
  destruct (IH Hinv1) as [Hinv' Hsub']. split; [done|by etrans].
Qed.

Lemma advance_evolves fuel k g x g' x' :
  advance fuel k g x = Some (g', x') → evolves k g x g' x'.
Proof.
  revert g x. induction fuel as [|fuel IH]; intros g x; simpl.
  - intros [= -> ->]. constructor.
  - destruct (iteration k x g) as [[r|g1]|e] eqn:Hit; try done.
    intros H. eapply evolves_step; eauto.
Qed.

Lemma main_loop_evolves fuel k g x r :
  main_loop fuel k g x = Some (Ok r) →
  ∃ g' x', evolves k g x g' x' ∧ iteration k x' g' = Ok (Return r).
Proof.
  revert g x. induction fuel as [|fuel IH]; intros g x; simpl; [done|].
  destruct (iteration k x g) as [[r'|g1]|e] eqn:Hit; try done.
  - intros [= ->]. exists g, x. split; [constructor|done].
  - intros (g' & x' & Hev & Hret)%IH. exists g', x'.
    split; [|done]. by eapply evolves_step.
Qed.

End Invariant.

(** ** The clique search *)

Section Search.

Lemma combinations_spec {A} (l : list A) r c :
  c ∈ combinations l r → length c = r ∧ c `sublist_of` l.
Proof.
  revert r c. induction l as [|a l IH]; intros [|r] c; simpl.
  - intros ->%list_elem_of_singleton. split; [done|constructor].
  - intros H. inversion H.
  - intros ->%list_elem_of_singleton. split; [done|apply sublist_nil_l].
  - intros [H|H]%elem_of_app.
    + apply list_elem_of_fmap in H as (c' & -> & [Hlen Hsub]%IH).
      split; [by simpl; f_equal|by constructor].
    + apply IH in H as [Hlen Hsub]. split; [done|by constructor].
Qed.

Lemma sublist_combinations {A} (l c : list A) :
  c `sublist_of` l → c ∈ combinations l (length c).
Proof.
  induction 1 as [|a c l Hsub IH|a c l Hsub IH]; simpl.
  - by left.
  - apply elem_of_app. left. by apply list_elem_of_fmap_2.
  - destruct c as [|b c]; simpl in *.
    + by left.
    + apply elem_of_app. by right.
Qed.

Lemma pair_sublist {A} (l : list A) p q :
  p ∈ l → q ∈ l → p ≠ q →
  [p; q] `sublist_of` l ∨ [q; p] `sublist_of` l.
Proof.
  induction l as [|a l IH]; intros Hp Hq Hne; [inversion Hp|].
  apply elem_of_cons in Hp as [->|Hp]; apply elem_of_cons in Hq as [->|Hq].
  - done.
  - left. constructor. by apply singleton_sublist_l.
  - right. constructor. by apply singleton_sublist_l.
  - destruct (IH Hp Hq Hne); [left|right]; by constructor.
Qed.

Lemma all_adjacent_true g pairs pr :
  all_adjacent g pairs = Ok true → pr ∈ pairs →
  ∃ p0 p1 i0 i1,
    pr !! 0%nat = Some p0 ∧ pr !! 1%nat = Some p1 ∧
    od_get (prime_to_index g) p0 = Ok i0 ∧
    od_get (prime_to_index g) p1 = Ok i1 ∧
    dok_get (adj g) i0 i1 = Ok true.
Proof.
  induction pairs as [|pr' pairs IH]; intros Hall Hin; [inversion Hin|].
  cbn [all_adjacent] in Hall.
  apply bind_ok in Hall as (p0 & Hp0 & (i0 & Hi0 & (p1 & Hp1 & (i1 & Hi1 &
    (e & He & Hall)%bind_ok)%bind_ok)%bind_ok)%bind_ok).
  destruct e; [|done].
  apply elem_of_cons in Hin as [->|Hin]; [|by apply IH].
  exists p0, p1, i0, i1. unfold item in Hp0, Hp1.
  destruct (pr' !! 0%nat); [|done]. destruct (pr' !! 1%nat); [|done].
  by simplify_eq.
Qed.

(** The loop stops at the first combination that is a clique: the
    combinations before it are not cliques, and those after it are
    left unread. *)
Lemma clique_loop_first g x subsets l s rest :
  clique_loop g x subsets None = Ok (Some (l, s), rest) →
  ∃ before c,
    subsets = before ++ c :: rest ∧
    Forall (fun c' => all_adjacent g (combinations c' 2) = Ok false) before ∧
    all_adjacent g (combinations c 2) = Ok true ∧
    l = c ++ [x] ∧ s = sum l.
Proof.
  induction subsets as [|c subsets IH]; [done|].
  cbn [clique_loop]. cbv zeta.
  intros ([|] & Hadj & H)%bind_ok; cbn [andb] in H.
  - injection H as <- <- <-. exists [], c. by repeat split.
  - destruct (IH H) as (before & c' & -> & Hbefore & Hrest).
    exists (c :: before), c'. split; [done|]. split; [by constructor|done].
Qed.

Lemma clique_loop_none g x subsets rest :
  clique_loop g x subsets None = Ok (None, rest) →
  Forall (fun c => all_adjacent g (combinations c 2) = Ok false) subsets.
Proof.
  induction subsets as [|c subsets IH]; [constructor|].
  cbn [clique_loop]. cbv zeta.
  intros ([|] & Hadj & H)%bind_ok; cbn [andb] in H; [done|].
  constructor; auto.
Qed.

Lemma clique_cands_spec k i g items cs :
  clique_cands k i g items = Ok cs →
  cs `sublist_of` items.*1 ∧
  ∀ q, q ∈ cs → ∃ j, (q, j) ∈ items ∧ dok_get (adj g) j i = Ok true.
Proof.
  revert cs. induction items as [|[q j] items IH]; intros cs; simpl.
  - intros [= <-]. split; [constructor|]. intros q Hq. inversion Hq.
  - intros (dq & Hdq & (b & Hb & (rest & Hrest & [= <-])%bind_ok)
      %bind_ok)%bind_ok.
    destruct (IH _ Hrest) as [Hsub Hall]. destruct b.
    + split; [by constructor|].
      intros q' [->|Hq']%elem_of_cons.
      * exists j. split; [by left|].
        by destruct (k - 1 <=? dq).
      * destruct (Hall _ Hq') as (j' & Hin & Hget).
        exists j'. split; [by right|done].
    + split; [by constructor|].
      intros q' Hq'. destruct (Hall _ Hq') as (j' & Hin & Hget).
      exists j'. split; [by right|done].
Qed.

Section WithInvariant.
Context (g : graph) (x' : Z) (Hinv : graph_inv g x').

Lemma index_lookup p i :
  (p, i) ∈ prime_to_index g →
  0 <= i < n g ∧ prime_cands g !! Z.to_nat i = Some p.
Proof.
  rewrite (inv_index _ _ Hinv), (inv_n _ _ Hinv).
  intros H%elem_of_index_items. by rewrite Z.sub_0_r in H.
Qed.

Lemma edge_compatible p q i j :
  (p, i) ∈ prime_to_index g → (q, j) ∈ prime_to_index g →
  dok_get (adj g) i j = Ok true →
  compatible p q ∧ p ≠ q.
Proof.
  intros [Hi Hp]%index_lookup [Hj Hq]%index_lookup Hget.
  apply (dok_get_true _ _ _ _ (inv_shape _ _ Hinv) Hi Hj) in Hget.
  destruct (inv_edges _ _ Hinv _ _ Hget)
    as (_ & _ & Hne & p' & q' & Hp' & Hq' & Hcomp).
  assert (p' = p) by congruence. assert (q' = q) by congruence. subst.
  split; [done|]. intros ->. apply Hne.
  assert (Z.to_nat i = Z.to_nat j); [|lia].
  eapply NoDup_lookup; [apply (inv_nodup _ _ Hinv)|done..].
Qed.

(** A clique returned by the search through [x]. *)
Lemma find_clique_sound k x l s rest :
  1 < k → find_clique k x g = Ok (Some (l, s), rest) →
  Z.of_nat (length l) = k ∧ NoDup l ∧ l ⊆ prime_cands g ∧
  (∀ p q, p ∈ l → q ∈ l → p ≠ q → compatible p q) ∧
  s = sum l.
Proof.
  intros Hk. unfold find_clique.
  intros (dx & Hdx & H)%bind_ok.
  destruct (k - 1 <=? dx); [|done].
  apply bind_ok in H as (i & Hi%od_get_elem & (cs & Hcs & H)%bind_ok).
  apply clique_cands_spec in Hcs as [Hcs_sub Hcs].
  apply clique_loop_first in H
    as (before & c & Hsplit & _ & Hadj & -> & ->).
  assert (Hc : c ∈ combinations cs (Z.to_nat (k - 1))).
  { rewrite Hsplit. apply elem_of_app. right. by left. }
  apply combinations_spec in Hc as [Hlen Hc_sub].
  assert (Hkeys : (prime_to_index g).*1 = prime_cands g).
  { rewrite (inv_index _ _ Hinv). apply index_items_fst. }
  rewrite Hkeys in Hcs_sub.
  assert (Hx_edge : ∀ q, q ∈ c → compatible q x ∧ q ≠ x).
  { intros q Hq. destruct (Hcs q) as (j & Hj & Hget).
    - by eapply elem_of_sublist.
    - by eapply edge_compatible. }
  assert (Hx_in : x ∈ prime_cands g).
  { rewrite <- Hkeys. apply list_elem_of_fmap. by exists (x, i). }
  assert (Hnd : NoDup c).
  { eapply sublist_NoDup; [apply (inv_nodup _ _ Hinv)|]. by etrans. }
  split; [rewrite length_app, Hlen; simpl; lia|].
  split.
  { apply NoDup_app. split; [done|]. split; [|apply NoDup_singleton].
    intros q Hq ->%list_elem_of_singleton. by destruct (Hx_edge x Hq). }
  split.
  { intros q [Hq|Hq%list_elem_of_singleton]%elem_of_app; [|by subst].
    eapply elem_of_sublist; [done|]. by etrans. }
  split; [|done].
  assert (Hcc : ∀ p q, p ∈ c → q ∈ c → [p; q] `sublist_of` c →
                compatible p q).
  { intros p q Hp Hq Hsub.
    apply sublist_combinations in Hsub. simpl length in Hsub.
    destruct (all_adjacent_true _ _ _ Hadj Hsub)
      as (p0 & p1 & i0 & i1 & [= <-] & [= <-] & Hi0 & Hi1 & Hget).
    apply od_get_elem in Hi0, Hi1.
    by destruct (edge_compatible _ _ _ _ Hi0 Hi1 Hget). }
  intros p q [Hp|Hp%list_elem_of_singleton]%elem_of_app
             [Hq|Hq%list_elem_of_singleton]%elem_of_app Hne; subst.
  - destruct (pair_sublist c p q Hp Hq Hne) as [Hs|Hs].
    + by apply Hcc.
    + apply compatible_sym. by apply Hcc.
  - by destruct (Hx_edge p Hp).
  - apply compatible_sym. by destruct (Hx_edge q Hq).
  - done.
Qed.

End WithInvariant.

End Search.

(** ** [main] *)

Section MainLoop.

Lemma iteration_return k x g r :
  iteration k x g = Ok (Return r) →
  ∃ g1 rest,
    is_prime (VInt x) = Ok true ∧ add_vertex x g = Ok g1 ∧
    find_clique k x g1 = Ok (Some r, rest).
Proof.
  unfold iteration. intros ([|] & Hp & H)%bind_ok; [|done].
  apply bind_ok in H as (g1 & Hadd & ([o rest] & Hr & H)%bind_ok).
  destruct o as [r'|]; simplify_eq/=. by exists g1, rest.
Qed.

Lemma main_loop_more_fuel fuel fuel' k g x r :
  main_loop fuel k g x = Some r → (fuel <= fuel')%nat →
  main_loop fuel' k g x = Some r.
Proof.
  revert fuel' g x. induction fuel as [|fuel IH]; intros fuel' g x; [done|].
  intros H Hle. destruct fuel' as [|fuel']; [lia|]. simpl in *.
  destruct (iteration k x g) as [[r'|g1]|e]; [done| |done].
  apply IH; [done|lia].
Qed.

Lemma degree_gain_nonneg x qs v : 0 <= degree_gain x qs v.
Proof.
  induction qs as [|q qs IH]; simpl; [done|].
  destruct (concatable x q), (decide (v = q)), (decide (v = x)); lia.
Qed.

Lemma add_vertex_degree_mono g x g1 v d :
  graph_inv g x → add_vertex x g = Ok g1 →
  prime_degrees g !! v = Some d →
  ∃ d', prime_degrees g1 !! v = Some d' ∧ d <= d'.
Proof.
  intros Hinv Hadd Hv.
  assert (v ≠ x).
  { intros ->. apply (graph_inv_fresh _ _ Hinv).
    apply (inv_degrees _ _ Hinv). eauto. }
  rewrite (add_vertex_degrees _ _ _ v Hadd), lookup_insert_ne, Hv by done.
  eexists. split; [done|].
  pose proof (degree_gain_nonneg x (prime_to_index g).*1 v). lia.
Qed.

Lemma evolves_degree_mono k g x g' x' v d :
  graph_inv g x → evolves k g x g' x' →
  prime_degrees g !! v = Some d →
  ∃ d', prime_degrees g' !! v = Some d' ∧ d <= d'.
Proof.
  intros Hinv Hev. revert d.
  induction Hev as [|g x g1 g' x' Hit Hev IH]; intros d Hv.
  - exists d. split; [done|lia].
  - destruct (iteration_inv _ _ _ _ Hinv Hit) as [Hinv1 _].
    apply iteration_continue in Hit as [[_ ->]|[_ Hadd]].
    + by apply IH.
    + destruct (add_vertex_degree_mono _ _ _ _ _ Hinv Hadd Hv)
        as (d1 & Hd1 & Hle).
      destruct (IH Hinv1 _ Hd1) as (d' & Hd' & Hle').
      exists d'. split; [done|lia].
Qed.

End MainLoop.

(** C2: when [main k] returns, for [k > 1], it returns [k] distinct
    primes, any two of which concatenate to a prime in both orders,
    together with their sum. *)
Theorem main_returns_clique (fuel : nat) (k : Z) (l : list Z) (s : Z) :
  1 < k → main fuel (VInt k) = Some (Ok (l, s)) →
  Z.of_nat (length l) = k ∧ NoDup l ∧ Forall Z.prime l ∧
  (∀ p q, p ∈ l → q ∈ l → p ≠ q → compatible p q) ∧
  s = sum l.
Proof.
  intros Hk. unfold main. destruct (Z.ltb_spec 1 k); [|lia].
  intros (g & x & Hev & Hret)%main_loop_evolves.
  destruct (evolves_inv _ _ _ _ _ init_graph_inv Hev) as [Hinv _].
  apply iteration_return in Hret as (g1 & rest & Hp & Hadd & Hfind).
  apply is_prime_true_prime in Hp; [|by destruct Hinv].
  destruct (add_vertex_inv _ _ _ Hinv Hp Hadd) as (Hinv1 & _ & _).
  destruct (find_clique_sound _ _ Hinv1 _ _ _ _ _ Hk Hfind)
    as (Hlen & Hnd & Hsub & Hcomp & Hsum).
  repeat (split; [done|]). split; [|done].
  apply Forall_forall. intros p Hp'.
  eapply Forall_forall; [apply (inv_prime _ _ Hinv1)|]. by apply Hsub.
Qed.

Lemma main_returns_clique_witness :
  Z.of_nat (length [3; 7]) = 2 ∧ NoDup [3; 7] ∧ Forall Z.prime [3; 7] ∧
  (∀ p q, p ∈ [3; 7] → q ∈ [3; 7] → p ≠ q → compatible p q) ∧
  10 = sum [3; 7].
Proof.
  apply (main_returns_clique 1 2 [3; 7] 10); [lia|].
  vm_compute. reflexivity.
Defined.

(** C4: [main(2)] returns the primes 3 and 7 with sum 10. *)
Theorem main_2_result : main 1 (VInt 2) = Some (Ok ([3; 7], 10)).
Proof. vm_compute. reflexivity. Qed.

(** C8: no graph met by the loop has an edge from a vertex to itself,
    and an edge present at some point is present in every later graph,
    through the resize and the insertion of every further vertex. *)
Theorem adjacency_no_self_loops_and_edges_persist (k : Z) (g : graph) (x : Z) :
  evolves k init_graph 7 g x →
  (∀ i, (i, i) ∉ keys (adj g)) ∧
  (∀ i, dok_get (adj g) i i ≠ Ok true) ∧
  (∀ g' x', evolves k g x g' x' → keys (adj g) ⊆ keys (adj g')) ∧
  (∀ g1, is_prime (VInt x) = Ok true → add_vertex x g = Ok g1 →
     keys (dok_resize (adj g) (n g + 1) (n g + 1)) = keys (adj g) ∧
     keys (adj g) ⊆ keys (adj g1) ∧
     ∀ i, (i, i) ∉ keys (adj g1)).
Proof.
  intros Hev.
  destruct (evolves_inv _ _ _ _ _ init_graph_inv Hev) as [Hinv _].
  assert (Hloop : ∀ g0 x0, graph_inv g0 x0 → ∀ i, (i, i) ∉ keys (adj g0)).
  { intros g0 x0 Hinv0 i Hi.
    by destruct (inv_edges _ _ Hinv0 _ _ Hi) as (_ & _ & Hne & _). }
  split; [by eapply Hloop|]. split.
  { intros i. unfold dok_get. rewrite (inv_shape _ _ Hinv). cbn [fst snd].
    destruct (norm_index (n g) i) as [i'|e]; [|done].
    cbn [mbind outcome_bind]. intros [= Hi%bool_decide_eq_true].
    by eapply Hloop. }
  split.
  { intros g' x' Hev'. by destruct (evolves_inv _ _ _ _ _ Hinv Hev'). }
  intros g1 Hp Hadd.
  apply is_prime_true_prime in Hp; [|by destruct Hinv].
  destruct (add_vertex_inv _ _ _ Hinv Hp Hadd) as (Hinv1 & Hsub & _).
  split; [apply dok_resize_grow, (inv_shape _ _ Hinv)|].
  split; [done|]. by eapply Hloop.
Qed.

Lemma adjacency_no_self_loops_and_edges_persist_witness :
  ∃ g, advance 4 4 init_graph 7 = Some (g, 11) ∧
    (∀ i, (i, i) ∉ keys (adj g)) ∧
    (∀ i, dok_get (adj g) i i ≠ Ok true) ∧
    (∀ g' x', evolves 4 g 11 g' x' → keys (adj g) ⊆ keys (adj g')) ∧
    (∀ g1, is_prime (VInt 11) = Ok true → add_vertex 11 g = Ok g1 →
       keys (dok_resize (adj g) (n g + 1) (n g + 1)) = keys (adj g) ∧
       keys (adj g) ⊆ keys (adj g1) ∧
       ∀ i, (i, i) ∉ keys (adj g1)).
Proof.
  destruct (advance 4 4 init_graph 7) as [[g x]|] eqn:E;
    [|vm_compute in E; discriminate].
  assert (x = 11) as -> by (vm_compute in E; congruence).
  exists g. split; [done|].
  apply (adjacency_no_self_loops_and_edges_persist 4 g 11).
  by apply (advance_evolves 4).
Defined.

(** C9: a degree never goes down while the graph grows; adding [x]
    raises the degree of an existing vertex [q] by one exactly when [x]
    and [q] are compatible, and the degree of [x] ends up as the number
    of existing vertices compatible with it. *)
Theorem degrees_only_grow (k : Z) (g : graph) (x : Z) :
  evolves k init_graph 7 g x →
  (∀ g' x' v d, evolves k g x g' x' → prime_degrees g !! v = Some d →
     ∃ d', prime_degrees g' !! v = Some d' ∧ d <= d') ∧
  (∀ g1, add_vertex x g = Ok g1 →
     (∀ q, q ∈ prime_cands g →
        ∃ d, prime_degrees g !! q = Some d ∧
             prime_degrees g1 !! q =
               Some (d + if concatable x q then 1 else 0)) ∧
     prime_degrees g1 !! x =
       Some (Z.of_nat (length (filter (fun q => concatable x q = true)
                                      (prime_cands g)))) ∧
     (∀ v d, prime_degrees g !! v = Some d →
        ∃ d', prime_degrees g1 !! v = Some d' ∧ d <= d')).
Proof.
  intros Hev.
  destruct (evolves_inv _ _ _ _ _ init_graph_inv Hev) as [Hinv _].
  split.
  { intros g' x' v d Hev'. by eapply evolves_degree_mono. }
  intros g1 Hadd.
  pose proof (graph_inv_fresh _ _ Hinv) as Hfresh.
  assert (Hkeys : (prime_to_index g).*1 = prime_cands g).
  { rewrite (inv_index _ _ Hinv). apply index_items_fst. }
  split; [|split].
  - intros q Hq. destruct (proj2 (inv_degrees _ _ Hinv q) Hq) as [d Hd].
    exists d. split; [done|].
    assert (q ≠ x) by (by intros ->).
    rewrite (add_vertex_degrees _ _ _ q Hadd), lookup_insert_ne, Hd by done.
    rewrite Hkeys, degree_gain_member; [done..|apply (inv_nodup _ _ Hinv)|done].
  - rewrite (add_vertex_degrees _ _ _ x Hadd), lookup_insert_eq, Hkeys.
    by rewrite degree_gain_self.
  - intros v d. by apply (add_vertex_degree_mono g x).
Qed.

Lemma degrees_only_grow_witness :
  ∃ g, advance 4 4 init_graph 7 = Some (g, 11) ∧
  (∀ g' x' v d, evolves 4 g 11 g' x' → prime_degrees g !! v = Some d →
     ∃ d', prime_degrees g' !! v = Some d' ∧ d <= d') ∧
  (∀ g1, add_vertex 11 g = Ok g1 →
     (∀ q, q ∈ prime_cands g →
        ∃ d, prime_degrees g !! q = Some d ∧
             prime_degrees g1 !! q =
               Some (d + if concatable 11 q then 1 else 0)) ∧
     prime_degrees g1 !! 11 =
       Some (Z.of_nat (length (filter (fun q => concatable 11 q = true)
                                      (prime_cands g)))) ∧
     (∀ v d, prime_degrees g !! v = Some d →
        ∃ d', prime_degrees g1 !! v = Some d' ∧ d <= d')).
Proof.
  destruct (advance 4 4 init_graph 7) as [[g x]|] eqn:E;
    [|vm_compute in E; discriminate].
  assert (x = 11) as -> by (vm_compute in E; congruence).
  exists g. split; [done|].
  apply (degrees_only_grow 4 g 11).
  by apply (advance_evolves 4).
Defined.

(** ** The run for [k = 4] *)

Section RunFour.

Lemma main_loop_after fuel k g x g' x' r :
  advance fuel k g x = Some (g', x') →
  iteration k x' g' = Ok (Return r) →
  main_loop (S fuel) k g x = Some (Ok r).
Proof.
  revert g x. induction fuel as [|fuel IH]; intros g x.
  - intros [= -> ->] Hit. simpl. by rewrite Hit.
  - cbn [advance]. intros Hadv Hit. cbn [main_loop].
    destruct (iteration k x g) as [[r'|g1]|e]; [done| |done].
    by apply IH.
Qed.

Lemma search_after_inv k fuel x cands r m :
  search_after k fuel = Some (x, cands, r, m) →
  ∃ g g1 rest,
    advance fuel k init_graph 7 = Some (g, x) ∧
    add_vertex x g = Ok g1 ∧
    (i ← od_get (prime_to_index g1) x;
     clique_cands k i g1 (prime_to_index g1)) = Ok cands ∧
    find_clique k x g1 = Ok (r, rest) ∧
    length rest = m.
Proof.
  unfold search_after.
  destruct (advance fuel k init_graph 7) as [[g x0]|] eqn:Hadv; [|done].
  destruct (add_vertex x0 g) as [g1|] eqn:Hadd; [|done].
  destruct (_ ≫= _) as [cands0|] eqn:Hcands; [|done].
  destruct (find_clique k x0 g1) as [[r0 rest]|] eqn:Hfind; [|done].
  intros [= -> -> -> <-]. by exists g, g1, rest.
Qed.

Lemma search_after_666 :
  search_after 4 666 =
  Some (673, [3; 7; 109; 199; 397; 457; 499; 613],
        Some ([3; 7; 109; 673], 792), 55%nat).
Proof.
  vm_cast_no_check
    (@eq_refl (option (Z * list Z * option (list Z * Z) * nat))
       (Some (673, [3; 7; 109; 199; 397; 457; 499; 613],
              Some ([3; 7; 109; 673], 792), 55%nat))).
Qed.

End RunFour.

(** C3: [main(4)] returns 3, 7, 109 and 673 with sum 792. *)
Theorem main_4_result :
  main 667 (VInt 4) = Some (Ok ([3; 7; 109; 673], 792)).
Proof.
  destruct (search_after_inv _ _ _ _ _ _ search_after_666)
    as (g & g1 & rest & Hadv & Hadd & _ & Hfind & _).
  unfold main. cbn [Z.ltb Z.compare Pos.compare Pos.compare_cont].
  apply (main_loop_after _ _ _ _ _ _ _ Hadv).
  unfold iteration.
  replace (is_prime (VInt 673)) with (Ok true) by (by vm_compute).
  cbn [mbind outcome_bind]. rewrite Hadd. cbn [mbind outcome_bind].
  by rewrite Hfind.
Qed.

(** C1: in [main(4)] the search that succeeds is the one for
    [x = 673].  Eight primes pass the filter, which gives 56
    combinations of three; the loop returns on reading the first of
    them and leaves the other 55 unread. *)
Theorem main_4_search_stops_at_first_clique :
  ∃ g g1 rest,
    advance 666 4 init_graph 7 = Some (g, 673) ∧
    add_vertex 673 g = Ok g1 ∧
    (i ← od_get (prime_to_index g1) 673;
     clique_cands 4 i g1 (prime_to_index g1))
      = Ok [3; 7; 109; 199; 397; 457; 499; 613] ∧
    length (combinations [3; 7; 109; 199; 397; 457; 499; 613]
                         (Z.to_nat (4 - 1))) = 56%nat ∧
    find_clique 4 673 g1 = Ok (Some ([3; 7; 109; 673], 792), rest) ∧
    length rest = 55%nat.
Proof.
  destruct (search_after_inv _ _ _ _ _ _ search_after_666)
    as (g & g1 & rest & Hadv & Hadd & Hcands & Hfind & Hrest).
  exists g, g1, rest. by repeat (split; [done|]).
Qed.


(** * Further properties *)

(** ** Decimal concatenation as arithmetic *)

Section ConcatArith.






Lemma is_prime_false x : 2 <= x → ¬ Z.prime x → is_prime (VInt x) = Ok false.
Proof.
  intros Hx Hn. unfold is_prime. destruct (Z.ltb_spec 0 x); [|lia].
  cbv zeta. f_equal. apply not_true_is_false. intros Ht.
  by apply Hn, trial_division_prime.
Qed.

Lemma is_prime_true x : Z.prime x → is_prime (VInt x) = Ok true.
Proof.
  intros Hp. pose proof (Z.prime_ge_2 _ Hp).
  unfold is_prime. destruct (Z.ltb_spec 0 x); [|lia].
  cbv zeta. f_equal. by apply trial_division_prime.
Qed.

Lemma is_prime_decides x b :
  2 <= x → is_prime (VInt x) = Ok b → (b = true ↔ Z.prime x).
Proof.
  intros Hx Hb. split.
  - intros ->. by apply is_prime_true_prime.
  - intros Hp. rewrite (is_prime_true _ Hp) in Hb. congruence.
Qed.

Lemma concatable_sym x y : 0 < x → 0 < y → concatable x y = concatable y x.
Proof.
  intros Hx Hy. unfold concatable.
  destruct (is_pairwise_concatable_pos x y Hx Hy)
    as (a & b & pa & pb & Ha & Hb & _ & _ & Hpa & Hpb & ->).
  destruct (is_pairwise_concatable_pos y x Hy Hx)
    as (a' & b' & pa' & pb' & Ha' & Hb' & _ & _ & Hpa' & Hpb' & ->).
  assert (a' = b) by congruence. assert (b' = a) by congruence. subst.
  assert (pa' = pb) by congruence. assert (pb' = pa) by congruence. subst.
  by rewrite andb_comm.
Qed.

Lemma compatible_concatable x y :
  0 < x → 0 < y → compatible x y → concatable x y = true.
Proof.
  intros Hx Hy (a & b & Ha & Hb & Hpa & Hpb). unfold concatable.
  destruct (is_pairwise_concatable_pos x y Hx Hy)
    as (a' & b' & pa & pb & Ha' & Hb' & _ & _ & Hpa' & Hpb' & ->).
  assert (a' = a) by congruence. assert (b' = b) by congruence. subst.
  rewrite (is_prime_true _ Hpa) in Hpa'. rewrite (is_prime_true _ Hpb) in Hpb'.
  by simplify_eq.
Qed.

Lemma concat_self_false p :
  2 <= p → is_pairwise_concatable (VInt p) (VInt p) = Ok false.
Proof.
  intros Hp.
  destruct (is_pairwise_concatable_pos p p) as
    (a & b & pa & pb & Ha & Hb & Ha2 & Hb2 & Hpa & Hpb & ->); [lia..|].
  rewrite py_int_concat in Ha by lia. injection Ha as <-.
  rewrite is_prime_false in Hpa; [by injection Hpa as <-|done|].
  intros [_ Hprime].
  assert (0 < 10 ^ Z.of_nat (String.length (py_str p)))
    by (apply Z.pow_pos_nonneg; lia).
  apply (Hprime p); [nia|].
  exists (10 ^ Z.of_nat (String.length (py_str p)) + 1). lia.
Qed.

Lemma concatable_self p : 2 <= p → concatable p p = false.
Proof. intros Hp. unfold concatable. by rewrite concat_self_false. Qed.

Lemma two_five_incompatible (q : Z) :
  0 < q →
  is_pairwise_concatable (VInt q) (VInt 2) = Ok false ∧
  is_pairwise_concatable (VInt 2) (VInt q) = Ok false ∧
  is_pairwise_concatable (VInt q) (VInt 5) = Ok false ∧
  is_pairwise_concatable (VInt 5) (VInt q) = Ok false.
Proof.
  intros Hq.
  assert (H2 : ¬ Z.prime (q * 10 ^ Z.of_nat (String.length (py_str 2)) + 2)).
  { change (py_str 2) with "2"%string. simpl String.length.
    intros [_ Hprime]. apply (Hprime 2); [lia|]. exists (q * 5 + 1). lia. }
  assert (H5 : ¬ Z.prime (q * 10 ^ Z.of_nat (String.length (py_str 5)) + 5)).
  { change (py_str 5) with "5"%string. simpl String.length.
    intros [_ Hprime]. apply (Hprime 5); [lia|]. exists (q * 2 + 1). lia. }
  assert (Hgen : ∀ r, 0 < r →
    ¬ Z.prime (q * 10 ^ Z.of_nat (String.length (py_str r)) + r) →
    is_pairwise_concatable (VInt q) (VInt r) = Ok false ∧
    is_pairwise_concatable (VInt r) (VInt q) = Ok false).
  { intros r Hr Hnp.
    destruct (is_pairwise_concatable_pos q r Hq Hr)
      as (a & b & pa & pb & Ha & Hb & Ha2 & Hb2 & Hpa & Hpb & ->).
    destruct (is_pairwise_concatable_pos r q Hr Hq)
      as (a' & b' & pa' & pb' & Ha' & Hb' & _ & _ & Hpa' & Hpb' & ->).
    assert (a' = b) by congruence. assert (b' = a) by congruence. subst.
    assert (pa' = pb) by congruence. assert (pb' = pa) by congruence. subst.
    rewrite py_int_concat in Ha by done. injection Ha as <-.
    rewrite is_prime_false in Hpa by done. injection Hpa as <-.
    by rewrite andb_false_r. }
  destruct (Hgen 2) as [? ?]; [lia|done|].
  destruct (Hgen 5) as [? ?]; [lia|done|]. done.
Qed.

End ConcatArith.





(** ** The candidates and their indices *)

Section Candidates.

Lemma evolves_preserves (P : graph → Z → Prop) k :
  (∀ g x g', P g x → iteration k x g = Ok (Continue g') → P g' (x + 1)) →
  ∀ g x g' x', P g x → evolves k g x g' x' → P g' x'.
Proof.
  intros Hstep g x g' x' HP Hev.
  induction Hev as [|g x g1 g' x' Hit Hev IH]; [done|].
  apply IH. by eapply Hstep.
Qed.

Lemma range_from_snoc lo len :
  range_from lo (S len) = range_from lo len ++ [lo + Z.of_nat len].
Proof.
  revert lo. induction len as [|len IH]; intros lo.
  - simpl. by rewrite Z.add_0_r.
  - change (range_from lo (S (S len)))
      with (lo :: range_from (lo + 1) (S len)).
    rewrite IH. simpl. do 3 f_equal. lia.
Qed.

Lemma range_snoc lo hi : lo <= hi → range lo (hi + 1) = range lo hi ++ [hi].
Proof.
  intros Hle. unfold range.
  replace (Z.to_nat (hi + 1 - lo)) with (S (Z.to_nat (hi - lo))) by lia.
  rewrite range_from_snoc. do 2 f_equal. lia.
Qed.

Lemma increasing_snoc l x :
  increasing l → Forall (fun p => p < x) l → increasing (l ++ [x]).
Proof.
  intros Hinc Hlt i j p q Hi Hj Hij.
  assert (Hjlen : (j < length (l ++ [x]))%nat) by (by eapply lookup_lt_Some).
  rewrite length_app in Hjlen. simpl in Hjlen.
  rewrite lookup_app_l in Hi by lia.
  destruct (decide (j = length l)) as [->|Hne].
  - rewrite list_lookup_middle in Hj by done. injection Hj as <-.
    apply (proj1 (Forall_forall _ _) Hlt). by eapply list_elem_of_lookup_2.
  - rewrite lookup_app_l in Hj by lia. by eapply Hinc.
Qed.

Lemma is_prime_b_prime p : 2 <= p → is_prime_b p = true ↔ Z.prime p.
Proof.
  intros Hp. unfold is_prime_b.
  destruct (is_prime_ok p) as [b Hb]; [lia|]. rewrite Hb.
  rewrite <- (is_prime_decides _ _ Hp Hb). by destruct b.
Qed.

Lemma od_get_index_items_Some l i0 m p :
  NoDup l → l !! m = Some p →
  od_get (index_items i0 l) p = Ok (i0 + Z.of_nat m).
Proof.
  revert i0 m. induction l as [|a l IH]; intros i0 m Hnd Hm; [done|].
  apply NoDup_cons in Hnd as [Ha Hnd]. simpl.
  destruct m as [|m]; simpl in Hm.
  - injection Hm as ->. rewrite Z.eqb_refl. f_equal. lia.
  - destruct (Z.eqb_spec a p) as [->|Hne].
    + exfalso. apply Ha. by eapply list_elem_of_lookup_2.
    + rewrite (IH _ m) by done. f_equal. lia.
Qed.

Lemma od_get_index_items_None l i0 p :
  p ∉ l → od_get (index_items i0 l) p = Raise KeyError.
Proof.
  revert i0. induction l as [|a l IH]; intros i0 Hp; [done|].
  apply not_elem_of_cons in Hp as [Hne Hp]. simpl.
  destruct (Z.eqb_spec a p); [done|]. by apply IH.
Qed.

Lemma evolves_cands_prefix k g x g' x' :
  graph_inv g x → evolves k g x g' x' →
  ∃ l, prime_cands g' = prime_cands g ++ l.
Proof.
  intros Hinv Hev. induction Hev as [|g x g1 g' x' Hit Hev IH].
  - exists []. by rewrite app_nil_r.
  - destruct (iteration_inv _ _ _ _ Hinv Hit) as [Hinv1 _].
    destruct (IH Hinv1) as [l Hl].
    apply iteration_continue in Hit as [[_ ->]|[Hp Hadd]]; [by exists l|].
    apply is_prime_true_prime in Hp; [|by destruct Hinv].
    destruct (add_vertex_inv _ _ _ Hinv Hp Hadd) as (_ & _ & Hc).
    exists ([x] ++ l). by rewrite Hl, Hc, <- app_assoc.
Qed.

Lemma od_get_position g x p i :
  graph_inv g x →
  od_get (prime_to_index g) p = Ok i ↔
  0 <= i ∧ prime_cands g !! Z.to_nat i = Some p.
Proof.
  intros Hinv. rewrite (inv_index _ _ Hinv). split.
  - intros H%od_get_index_items. tauto.
  - intros [Hi Hp].
    rewrite (od_get_index_items_Some _ 0 (Z.to_nat i) p);
      [f_equal; lia|apply (inv_nodup _ _ Hinv)|done].
Qed.

Lemma cands_list k g x :
  evolves k init_graph 7 g x →
  graph_inv g x ∧ 7 <= x ∧
  prime_cands g = 3 :: filter (fun p => is_prime_b p = true) (range 7 x) ∧
  increasing (prime_cands g).
Proof.
  apply (evolves_preserves (fun g x => graph_inv g x ∧ 7 <= x ∧
    prime_cands g = 3 :: filter (fun p => is_prime_b p = true) (range 7 x) ∧
    increasing (prime_cands g))).
  - clear. intros g x g' (Hinv & Hx & Hc & Hinc) Hit.
    destruct (iteration_inv _ _ _ _ Hinv Hit) as [Hinv' _].
    split; [done|]. split; [lia|].
    rewrite range_snoc, filter_app by done.
    apply iteration_continue in Hit as [[Hp ->]|[Hp Hadd]].
    + split; [|done]. rewrite Hc, filter_cons, decide_False.
      * by rewrite filter_nil, app_nil_r.
      * unfold is_prime_b. by rewrite Hp.
    + pose proof Hp as Hp'.
      apply is_prime_true_prime in Hp'; [|lia].
      destruct (add_vertex_inv _ _ _ Hinv Hp' Hadd) as (_ & _ & Hc').
      rewrite Hc'. split.
      * rewrite Hc, filter_cons, decide_True; [done|].
        unfold is_prime_b. by rewrite Hp.
      * apply increasing_snoc; [done|apply (inv_below _ _ Hinv)].
  - split; [apply init_graph_inv|]. split; [lia|]. split; [done|].
    intros [|i] [|j] p q; simpl; intros Hi Hj Hij; try done; lia.
Qed.

Lemma cands_mem k g x p :
  evolves k init_graph 7 g x →
  p ∈ prime_cands g ↔ p = 3 ∨ (7 <= p < x ∧ Z.prime p).
Proof.
  intros (_ & _ & Hc & _)%cands_list.
  rewrite Hc, elem_of_cons, list_elem_of_filter, elem_of_range.
  split; (intros [->|[H1 H2]]; [by left|right]).
  - split; [lia|]. apply is_prime_b_prime; [lia|done].
  - split; [|lia]. apply is_prime_b_prime; [lia|done].
Qed.

End Candidates.

(** X4: whenever the loop is about to test [x], the candidates are 3
    followed by the primes from 7 up to [x - 1], in increasing order;
    2 and 5 are never among them. *)
Theorem candidates_are_3_and_the_primes_from_7 (k : Z) (g : graph) (x : Z) :
  evolves k init_graph 7 g x →
  prime_cands g = 3 :: filter (fun p => is_prime_b p = true) (range 7 x) ∧
  (∀ p, p ∈ prime_cands g ↔ p = 3 ∨ (7 <= p < x ∧ Z.prime p)) ∧
  increasing (prime_cands g) ∧
  (2 ∉ prime_cands g) ∧ (5 ∉ prime_cands g).
Proof.
  intros Hev. destruct (cands_list _ _ _ Hev) as (_ & _ & Hc & Hinc).
  split; [done|]. split; [intros p; by apply (cands_mem k)|].
  split; [done|].
  split; rewrite (cands_mem k g x) by done; lia.
Qed.

Lemma candidates_are_3_and_the_primes_from_7_witness :
  ∃ g, advance 5 4 init_graph 7 = Some (g, 12) ∧
    prime_cands g = 3 :: filter (fun p => is_prime_b p = true) (range 7 12) ∧
    (∀ p, p ∈ prime_cands g ↔ p = 3 ∨ (7 <= p < 12 ∧ Z.prime p)) ∧
    increasing (prime_cands g) ∧
    (2 ∉ prime_cands g) ∧ (5 ∉ prime_cands g).
Proof.
  destruct (advance 5 4 init_graph 7) as [[g x]|] eqn:E;
    [|vm_compute in E; discriminate].
  assert (x = 12) as -> by (vm_compute in E; congruence).
  exists g. split; [done|].
  apply (candidates_are_3_and_the_primes_from_7 4 g 12).
  by apply (advance_evolves 5).
Defined.

(** X5: [prime_to_index] maps a candidate to its position in
    [prime_cands] and raises [KeyError] on anything else; [n] is the
    number of candidates; an index, once given, is the same in every
    later graph. *)
Theorem index_is_position_and_is_stable (k : Z) (g : graph) (x : Z) :
  evolves k init_graph 7 g x →
  (∀ p i, od_get (prime_to_index g) p = Ok i ↔
          0 <= i ∧ prime_cands g !! Z.to_nat i = Some p) ∧
  (∀ p, p ∉ prime_cands g → od_get (prime_to_index g) p = Raise KeyError) ∧
  n g = Z.of_nat (length (prime_cands g)) ∧
  (∀ g' x' p i, evolves k g x g' x' →
     od_get (prime_to_index g) p = Ok i →
     od_get (prime_to_index g') p = Ok i).
Proof.
  intros Hev.
  destruct (evolves_inv _ _ _ _ _ init_graph_inv Hev) as [Hinv _].
  split; [intros p i; by eapply od_get_position|].
  split.
  { intros p Hp. rewrite (inv_index _ _ Hinv).
    by apply od_get_index_items_None. }
  split; [apply (inv_n _ _ Hinv)|].
  intros g' x' p i Hev' Hget.
  destruct (evolves_inv _ _ _ _ _ Hinv Hev') as [Hinv' _].
  destruct (evolves_cands_prefix _ _ _ _ _ Hinv Hev') as [l Hl].
  apply (od_get_position _ _ _ _ Hinv) in Hget as [Hi Hp].
  apply (od_get_position _ _ _ _ Hinv'). split; [done|].
  rewrite Hl. by apply lookup_app_l_Some.
Qed.

Lemma index_is_position_and_is_stable_witness :
  ∃ g, advance 5 4 init_graph 7 = Some (g, 12) ∧
  (∀ p i, od_get (prime_to_index g) p = Ok i ↔
          0 <= i ∧ prime_cands g !! Z.to_nat i = Some p) ∧
  (∀ p, p ∉ prime_cands g → od_get (prime_to_index g) p = Raise KeyError) ∧
  n g = Z.of_nat (length (prime_cands g)) ∧
  (∀ g' x' p i, evolves 4 g 12 g' x' →
     od_get (prime_to_index g) p = Ok i →
     od_get (prime_to_index g') p = Ok i).
Proof.
  destruct (advance 5 4 init_graph 7) as [[g x]|] eqn:E;
    [|vm_compute in E; discriminate].
  assert (x = 12) as -> by (vm_compute in E; congruence).
  exists g. split; [done|].
  apply (index_is_position_and_is_stable 4 g 12).
  by apply (advance_evolves 5).
Defined.

(** ** The graph is the compatibility relation *)

Section ExactGraph.

Lemma elem_of_index_items_2 i0 l m q :
  l !! m = Some q → (q, i0 + Z.of_nat m) ∈ index_items i0 l.
Proof.
  revert i0 m. induction l as [|a l IH]; intros i0 m Hm; [done|].
  cbn [index_items]. destruct m as [|m]; simpl in Hm.
  - injection Hm as ->. rewrite Z.add_0_r. by left.
  - right. replace (i0 + Z.of_nat (S m)) with (i0 + 1 + Z.of_nat m) by lia.
    by apply IH.
Qed.

Lemma connect_all_complete x items a d a' d' N q j :
  shape a = (N, N) → connect_all x items (a, d) = Ok (a', d') →
  (q, j) ∈ items → concatable x q = true →
  ∃ j', norm_index N j = Ok j' ∧
        (N - 1, j') ∈ keys a' ∧ (j', N - 1) ∈ keys a'.
Proof.
  revert a d. induction items as [|[q0 j0] items IH]; intros a d Hs Hc Hin Hq.
  - inversion Hin.
  - cbn [connect_all] in Hc. apply bind_ok in Hc as ([a1 d1] & H1 & Hrest).
    destruct (connect_spec _ _ _ _ _ _ _ _ Hs H1) as (Hs1 & _ & Hk1).
    apply elem_of_cons in Hin as [[= -> ->]|Hin]; [|by eapply IH].
    rewrite Hq in Hk1. destruct Hk1 as (j' & Hj & _ & Hk1).
    destruct (connect_all_spec _ _ _ _ _ _ _ Hs1 Hrest) as (_ & Hsub & _).
    exists j'. split; [done|].
    split; apply Hsub; rewrite Hk1.
    + apply elem_of_union_r, elem_of_union_l. by apply elem_of_singleton.
    + apply elem_of_union_l. by apply elem_of_singleton.
Qed.

Lemma cands_positive g x i p :
  graph_inv g x → prime_cands g !! i = Some p → 2 <= p.
Proof.
  intros Hinv Hp. apply Z.prime_ge_2.
  eapply Forall_forall; [apply (inv_prime _ _ Hinv)|].
  by eapply list_elem_of_lookup_2.
Qed.

Lemma add_vertex_edges_exact x g g1 :
  graph_inv g x → Z.prime x → edges_exact g →
  add_vertex x g = Ok g1 → edges_exact g1.
Proof.
  intros Hinv Hpx Hex Hadd.
  destruct (add_vertex_inv _ _ _ Hinv Hpx Hadd) as (Hinv1 & _ & Hc).
  pose proof (Z.prime_ge_2 _ Hpx) as Hx2.
  revert Hadd. unfold add_vertex. cbv zeta.
  intros ([a' d'] & Hcon & [= <-])%bind_ok.
  unfold edges_exact. cbn [prime_cands adj fst].
  pose proof (dok_resize_grow _ _ (inv_shape _ _ Hinv)) as Hkeys.
  assert (Hs : shape (dok_resize (adj g) (n g + 1) (n g + 1))
               = (n g + 1, n g + 1)) by done.
  destruct (connect_all_spec _ _ _ _ _ _ _ Hs Hcon) as (_ & Hsub & _ & Hnew).
  rewrite Hkeys in Hsub.
  pose proof (inv_n _ _ Hinv) as Hn.
  assert (Hold : ∀ i j, (Z.of_nat i, Z.of_nat j) ∈ keys (adj g) →
                 (i < length (prime_cands g))%nat ∧
                 (j < length (prime_cands g))%nat).
  { intros i j Hij.
    destruct (inv_edges _ _ Hinv _ _ Hij) as (_ & _ & _ & p & q & Hp & Hq & _).
    rewrite Nat2Z.id in Hp, Hq.
    split; by eapply lookup_lt_Some. }
  assert (Hfresh : ∀ i j, (Z.of_nat i, Z.of_nat j) ∈ keys a' →
    (Z.of_nat i, Z.of_nat j) ∈ keys (adj g) ∨
    (i = length (prime_cands g) ∧
       ∃ q, prime_cands g !! j = Some q ∧ concatable x q = true) ∨
    (j = length (prime_cands g) ∧
       ∃ q, prime_cands g !! i = Some q ∧ concatable x q = true)).
  { intros i j Hij. destruct (Hnew _ Hij) as [Hin|Hin].
    - left. by rewrite Hkeys in Hin.
    - right. destruct Hin as (q & j0 & j' & Hin & Hq & Hnorm & _ & Hcase).
      rewrite (inv_index _ _ Hinv) in Hin.
      apply elem_of_index_items in Hin as [Hr Hlook].
      rewrite Z.sub_0_r in Hlook.
      rewrite norm_index_in_range in Hnorm by lia. injection Hnorm as <-.
      destruct Hcase as [[= Hi Hj]|[= Hi Hj]].
      + right. split; [lia|]. exists q. split; [|done].
        by replace i with (Z.to_nat j0) by lia.
      + left. split; [lia|]. exists q. split; [|done].
        by replace j with (Z.to_nat j0) by lia. }
  assert (Hadded : ∀ j q, prime_cands g !! j = Some q →
    concatable x q = true →
    (Z.of_nat (length (prime_cands g)), Z.of_nat j) ∈ keys a' ∧
    (Z.of_nat j, Z.of_nat (length (prime_cands g))) ∈ keys a').
  { intros j q Hq Hcq.
    pose proof (lookup_lt_Some _ _ _ Hq) as Hlt.
    destruct (connect_all_complete _ _ _ _ _ _ _ q (Z.of_nat j) Hs Hcon)
      as (j' & Hnorm & H1 & H2); [|done|].
    { rewrite (inv_index _ _ Hinv).
      by apply (elem_of_index_items_2 0). }
    rewrite norm_index_in_range in Hnorm by lia. injection Hnorm as <-.
    replace (n g + 1 - 1) with (Z.of_nat (length (prime_cands g))) in H1, H2
      by lia.
    done. }
  intros i j p q Hi Hj Hne.
  pose proof (lookup_lt_Some _ _ _ Hi) as Hilt.
  pose proof (lookup_lt_Some _ _ _ Hj) as Hjlt.
  rewrite length_app in Hilt, Hjlt. simpl in Hilt, Hjlt.
  destruct (decide (i = length (prime_cands g))) as [->|Hi'];
    destruct (decide (j = length (prime_cands g))) as [->|Hj'].
  - done.
  - rewrite list_lookup_middle in Hi by done. injection Hi as <-.
    rewrite lookup_app_l in Hj by lia. split.
    + intros Hij. destruct (Hfresh _ _ Hij) as [Hin|[[_ Hq]|[Hjn _]]].
      * apply Hold in Hin. lia.
      * destruct Hq as (q' & Hq' & Hc'). by simplify_eq.
      * lia.
    + intros Hcq. by destruct (Hadded _ _ Hj Hcq).
  - rewrite list_lookup_middle in Hj by done. injection Hj as <-.
    rewrite lookup_app_l in Hi by lia.
    pose proof (cands_positive _ _ _ _ Hinv Hi).
    rewrite (concatable_sym p x) by lia. split.
    + intros Hij. destruct (Hfresh _ _ Hij) as [Hin|[[Hin _]|[_ Hq]]].
      * apply Hold in Hin. lia.
      * lia.
      * destruct Hq as (q' & Hq' & Hc'). by simplify_eq.
    + intros Hcq. by destruct (Hadded _ _ Hi Hcq).
  - rewrite lookup_app_l in Hi, Hj by lia. rewrite <- (Hex i j p q) by done.
    split; [|apply Hsub].
    intros Hij. destruct (Hfresh _ _ Hij) as [Hin|[[? _]|[? _]]]; [done|lia..].
Qed.

Lemma neighbours_snoc p l x :
  neighbours p (l ++ [x]) =
  neighbours p l ++ (if concatable p x then [x] else []).
Proof.
  unfold neighbours. rewrite filter_app, filter_cons, filter_nil.
  case_decide as Hc; [by rewrite Hc|].
  by destruct (concatable p x).
Qed.

Lemma add_vertex_degrees_exact x g g1 :
  graph_inv g x → Z.prime x → degrees_exact g →
  add_vertex x g = Ok g1 → degrees_exact g1.
Proof.
  intros Hinv Hpx Hex Hadd.
  destruct (add_vertex_inv _ _ _ Hinv Hpx Hadd) as (Hinv1 & _ & Hc).
  pose proof (Z.prime_ge_2 _ Hpx) as Hx2.
  pose proof (graph_inv_fresh _ _ Hinv) as Hfresh.
  assert (Hkeys : (prime_to_index g).*1 = prime_cands g).
  { rewrite (inv_index _ _ Hinv). apply index_items_fst. }
  intros p Hp. rewrite Hc in Hp |- *. rewrite neighbours_snoc, length_app.
  rewrite (add_vertex_degrees _ _ _ p Hadd), Hkeys.
  apply elem_of_app in Hp as [Hp|Hp%list_elem_of_singleton]; [|subst p].
  - assert (p ≠ x) by (by intros ->).
    apply list_elem_of_lookup in Hp as [i Hi].
    pose proof (cands_positive _ _ _ _ Hinv Hi).
    rewrite lookup_insert_ne, (Hex p) by (done || by eapply list_elem_of_lookup_2).
    rewrite degree_gain_member;
      [|done|apply (inv_nodup _ _ Hinv)|by eapply list_elem_of_lookup_2].
    rewrite (concatable_sym p x) by lia. simpl. f_equal.
    destruct (concatable x p); simpl; lia.
  - rewrite lookup_insert_eq, degree_gain_self, concatable_self by done.
    simpl. f_equal. unfold neighbours. lia.
Qed.

Lemma exact_invariant k g x :
  evolves k init_graph 7 g x →
  graph_inv g x ∧ edges_exact g ∧ degrees_exact g.
Proof.
  apply (evolves_preserves
    (fun g x => graph_inv g x ∧ edges_exact g ∧ degrees_exact g)).
  - clear. intros g x g' (Hinv & He & Hd) Hit.
    destruct (iteration_inv _ _ _ _ Hinv Hit) as [Hinv' _].
    split; [done|].
    apply iteration_continue in Hit as [[_ ->]|[Hp Hadd]]; [done|].
    apply is_prime_true_prime in Hp; [|by destruct Hinv].
    split.
    + by apply (add_vertex_edges_exact x g).
    + by apply (add_vertex_degrees_exact x g).
  - split; [apply init_graph_inv|]. split.
    + intros [|i] [|j] p q; simpl; try done.
    + intros p ->%list_elem_of_singleton. by vm_compute.
Qed.

Lemma dok_get_in_range m i j N :
  shape m = (N, N) → 0 <= i < N → 0 <= j < N →
  dok_get m i j = Ok (bool_decide ((i, j) ∈ keys m)).
Proof.
  intros Hs Hi Hj. unfold dok_get. rewrite Hs. cbn [fst snd].
  by rewrite !norm_index_in_range.
Qed.

Lemma dok_get_exact g x i j p q :
  graph_inv g x → edges_exact g →
  prime_cands g !! i = Some p → prime_cands g !! j = Some q →
  dok_get (adj g) (Z.of_nat i) (Z.of_nat j)
    = Ok (bool_decide (i ≠ j) && concatable p q).
Proof.
  intros Hinv Hex Hi Hj.
  pose proof (lookup_lt_Some _ _ _ Hi). pose proof (lookup_lt_Some _ _ _ Hj).
  pose proof (inv_n _ _ Hinv).
  rewrite (dok_get_in_range _ _ _ _ (inv_shape _ _ Hinv)) by lia.
  f_equal. destruct (decide (i = j)) as [->|Hne].
  - rewrite (bool_decide_eq_false_2 (j ≠ j)) by tauto.
    apply bool_decide_eq_false_2. intros Hin.
    by destruct (inv_edges _ _ Hinv _ _ Hin) as (_ & _ & ? & _).
  - rewrite (bool_decide_eq_true_2 (i ≠ j)) by done. simpl.
    destruct (concatable p q) eqn:Hc.
    + apply bool_decide_eq_true_2. by apply (Hex i j p q).
    + apply bool_decide_eq_false_2. intros Hin.
      apply (Hex i j p q) in Hin; [congruence|done..].
Qed.

End ExactGraph.

(** X6: reading the adjacency matrix at the indices of two candidates
    gives [True] exactly when they are distinct and
    [is_pairwise_concatable] accepts them; the matrix is symmetric. *)
Theorem adjacency_is_the_compatibility_relation
    (k : Z) (g : graph) (x : Z) (i j : nat) (p q : Z) :
  evolves k init_graph 7 g x →
  prime_cands g !! i = Some p → prime_cands g !! j = Some q →
  dok_get (adj g) (Z.of_nat i) (Z.of_nat j)
    = Ok (bool_decide (i ≠ j) && concatable p q) ∧
  dok_get (adj g) (Z.of_nat j) (Z.of_nat i)
    = dok_get (adj g) (Z.of_nat i) (Z.of_nat j).
Proof.
  intros Hev Hi Hj.
  destruct (exact_invariant _ _ _ Hev) as (Hinv & Hex & _).
  rewrite (dok_get_exact _ _ _ _ _ _ Hinv Hex Hi Hj).
  rewrite (dok_get_exact _ _ _ _ _ _ Hinv Hex Hj Hi).
  split; [done|]. f_equal.
  pose proof (cands_positive _ _ _ _ Hinv Hi).
  pose proof (cands_positive _ _ _ _ Hinv Hj).
  rewrite (concatable_sym q p) by lia. f_equal.
  apply bool_decide_ext. split; intros H1 H2; by apply H1.
Qed.

Lemma adjacency_is_the_compatibility_relation_witness :
  ∃ g, advance 5 4 init_graph 7 = Some (g, 12) ∧
  dok_get (adj g) (Z.of_nat 0) (Z.of_nat 2)
    = Ok (bool_decide (0%nat ≠ 2%nat) && concatable 3 11) ∧
  dok_get (adj g) (Z.of_nat 2) (Z.of_nat 0)
    = dok_get (adj g) (Z.of_nat 0) (Z.of_nat 2).
Proof.
  destruct (advance 5 4 init_graph 7) as [[g x]|] eqn:E;
    [|vm_compute in E; discriminate].
  pose proof (advance_evolves _ _ _ _ _ _ E) as Hev.
  vm_compute in E. injection E as <- <-.
  eexists. split; [reflexivity|].
  by apply (adjacency_is_the_compatibility_relation 4 _ 12 0 2 3 11).
Defined.

(** X7: the degree recorded for a candidate is the number of candidates
    it is compatible with, that is, the number of its edges. *)
Theorem degree_is_the_number_of_neighbours (k : Z) (g : graph) (x p : Z) :
  evolves k init_graph 7 g x → p ∈ prime_cands g →
  prime_degrees g !! p =
    Some (Z.of_nat (length (neighbours p (prime_cands g)))) ∧
  (∀ q, q ∈ neighbours p (prime_cands g) ↔
     ∃ i j, prime_cands g !! i = Some p ∧ prime_cands g !! j = Some q ∧
            (Z.of_nat i, Z.of_nat j) ∈ keys (adj g)).
Proof.
  intros Hev Hp.
  destruct (exact_invariant _ _ _ Hev) as (Hinv & Hex & Hdeg).
  split; [by apply Hdeg|].
  apply list_elem_of_lookup in Hp as [i Hi].
  pose proof (cands_positive _ _ _ _ Hinv Hi) as Hp2.
  intros q. unfold neighbours. rewrite list_elem_of_filter. split.
  - intros [Hc [j Hj]%list_elem_of_lookup]. exists i, j.
    split; [done|]. split; [done|].
    apply (Hex i j p q); [done..| |done].
    intros ->. assert (q = p) by congruence. subst.
    rewrite concatable_self in Hc by done. done.
  - intros (i' & j & Hi' & Hj & Hin). split; [|by eapply list_elem_of_lookup_2].
    apply (Hex i' j p q); [done..| |done].
    destruct (inv_edges _ _ Hinv _ _ Hin) as (_ & _ & Hne & _). lia.
Qed.

Lemma degree_is_the_number_of_neighbours_witness :
  ∃ g, advance 5 4 init_graph 7 = Some (g, 12) ∧
  prime_degrees g !! 3 =
    Some (Z.of_nat (length (neighbours 3 (prime_cands g)))) ∧
  (∀ q, q ∈ neighbours 3 (prime_cands g) ↔
     ∃ i j, prime_cands g !! i = Some 3 ∧ prime_cands g !! j = Some q ∧
            (Z.of_nat i, Z.of_nat j) ∈ keys (adj g)).
Proof.
  destruct (advance 5 4 init_graph 7) as [[g x]|] eqn:E;
    [|vm_compute in E; discriminate].
  pose proof (advance_evolves _ _ _ _ _ _ E) as Hev.
  vm_compute in E. injection E as <- <-.
  eexists. split; [reflexivity|].
  apply (degree_is_the_number_of_neighbours 4 _ 12 3); [done|by left].
Defined.

(** ** No exception beyond the guard *)

Section NoRaise.

Lemma norm_index_minus_one N : 0 < N → norm_index N (-1) = Ok (N - 1).
Proof.
  intros HN. unfold norm_index.
  destruct (Z.ltb_spec (-1) (- N)), (Z.leb_spec N (-1)); try lia.
  cbn [orb]. destruct (Z.ltb_spec (-1) 0); [|lia]. f_equal. lia.
Qed.

Lemma dok_set_true_in_range a i j N :
  shape a = (N, N) → 0 < N → (i = -1 ∨ 0 <= i < N) → (j = -1 ∨ 0 <= j < N) →
  ∃ a', dok_set_true a i j = Ok a'.
Proof.
  intros Hs HN Hi Hj. unfold dok_set_true. rewrite Hs. cbn [fst snd].
  assert (Hn : ∀ m, m = -1 ∨ 0 <= m < N → ∃ m', norm_index N m = Ok m').
  { intros m [->|Hm]; eexists;
      [by apply norm_index_minus_one|by apply norm_index_in_range]. }
  destruct (Hn i Hi) as [i' ->]. destruct (Hn j Hj) as [j' ->].
  cbn [mbind outcome_bind]. eauto.
Qed.

Lemma connect_ok x q j a d N :
  0 < x → 0 < q → 0 < N → 0 <= j < N → shape a = (N, N) →
  is_Some (d !! q) → is_Some (d !! x) →
  ∃ s, connect x q j (a, d) = Ok s.
Proof.
  intros Hx Hq HN Hj Hs [dq Hdq] [dx Hdx]. unfold connect.
  destruct (is_pairwise_concatable_pos x q Hx Hq)
    as (? & ? & pa & pb & _ & _ & _ & _ & _ & _ & ->).
  cbn [mbind outcome_bind fst snd]. destruct (pa && pb); [|eauto].
  destruct (dok_set_true_in_range a (-1) j N) as [a1 Ha1]; [tauto..|].
  rewrite Ha1. cbn [mbind outcome_bind].
  destruct (dok_set_true_ok _ _ _ _ _ Hs Ha1) as (_ & _ & _ & _ & Hs1 & _).
  destruct (dok_set_true_in_range a1 j (-1) N) as [a2 Ha2]; [tauto..|].
  rewrite Ha2. cbn [mbind outcome_bind].
  unfold deg_incr, deg_get. rewrite Hdq. cbn [mbind outcome_bind].
  destruct (decide (x = q)) as [->|Hne].
  - rewrite lookup_insert_eq. cbn [mbind outcome_bind]. eauto.
  - rewrite lookup_insert_ne, Hdx by done. cbn [mbind outcome_bind]. eauto.
Qed.

Lemma connect_all_ok x items a d N :
  0 < x → 0 < N → shape a = (N, N) →
  (∀ q j, (q, j) ∈ items → 0 < q ∧ 0 <= j < N ∧ is_Some (d !! q)) →
  is_Some (d !! x) →
  ∃ s, connect_all x items (a, d) = Ok s.
Proof.
  intros Hx HN. revert a d.
  induction items as [|[q j] items IH]; intros a d Hs Hitems Hdx; [by eexists|].
  cbn [connect_all].
  destruct (Hitems q j) as (Hq & Hj & Hdq); [by left|].
  destruct (connect_ok x q j a d N) as [[a1 d1] H1]; [done..|].
  rewrite H1. cbn [mbind outcome_bind].
  destruct (connect_spec _ _ _ _ _ _ _ _ Hs H1) as (Hs1 & Hd1 & _).
  assert (Hkeep : ∀ v, is_Some (d !! v) → is_Some (d1 !! v)).
  { intros v Hv. rewrite Hd1. by apply fmap_is_Some. }
  apply IH; [done| |by apply Hkeep].
  intros q' j' Hin. destruct (Hitems q' j') as (? & ? & ?); [by right|].
  split; [done|]. split; [done|]. by apply Hkeep.
Qed.

Lemma index_items_in g x q j :
  graph_inv g x → (q, j) ∈ prime_to_index g →
  0 <= j < n g ∧ q ∈ prime_cands g ∧ 2 <= q.
Proof.
  intros Hinv Hin. rewrite (inv_index _ _ Hinv) in Hin.
  apply elem_of_index_items in Hin as [Hr Hq]. rewrite Z.sub_0_r in Hq.
  rewrite (inv_n _ _ Hinv). split; [lia|].
  split; [by eapply list_elem_of_lookup_2|by eapply cands_positive].
Qed.

Lemma add_vertex_ok g x : graph_inv g x → ∃ g1, add_vertex x g = Ok g1.
Proof.
  intros Hinv. unfold add_vertex. cbv zeta.
  pose proof (inv_next _ _ Hinv). pose proof (inv_n _ _ Hinv).
  destruct (connect_all_ok x (prime_to_index g)
              (dok_resize (adj g) (n g + 1) (n g + 1))
              (<[x:=0]> (prime_degrees g)) (n g + 1)) as [s Hs];
    [lia|lia|done| |by rewrite lookup_insert_eq|].
  - intros q j Hin.
    destruct (index_items_in _ _ _ _ Hinv Hin) as (Hj & Hq & Hq2).
    split; [lia|]. split; [lia|].
    apply (inv_degrees _ _ Hinv) in Hq as [dq Hdq].
    destruct (decide (x = q)) as [->|Hne].
    + by rewrite lookup_insert_eq.
    + by rewrite lookup_insert_ne, Hdq.
  - rewrite Hs. cbn [mbind outcome_bind]. eauto.
Qed.

Lemma dok_get_ok g x i j :
  graph_inv g x → 0 <= i < n g → 0 <= j < n g →
  ∃ b, dok_get (adj g) i j = Ok b.
Proof.
  intros Hinv Hi Hj.
  rewrite (dok_get_in_range _ _ _ _ (inv_shape _ _ Hinv)) by done. eauto.
Qed.

Lemma od_get_ok g x p :
  graph_inv g x → p ∈ prime_cands g →
  ∃ i, od_get (prime_to_index g) p = Ok i ∧ 0 <= i < n g.
Proof.
  intros Hinv [m Hm]%list_elem_of_lookup. exists (Z.of_nat m).
  pose proof (lookup_lt_Some _ _ _ Hm). rewrite (inv_n _ _ Hinv).
  split; [|lia]. apply (od_get_position _ _ _ _ Hinv).
  split; [lia|]. by rewrite Nat2Z.id.
Qed.

Lemma clique_cands_ok k i g x items :
  graph_inv g x → 0 <= i < n g → items ⊆ prime_to_index g →
  ∃ cs, clique_cands k i g items = Ok cs.
Proof.
  intros Hinv Hi. induction items as [|[q j] items IH]; intros Hsub;
    [by eexists|].
  cbn [clique_cands].
  destruct (index_items_in _ _ q j Hinv) as (Hj & Hq & _);
    [apply Hsub; by left|].
  apply (inv_degrees _ _ Hinv) in Hq as [dq Hdq].
  unfold deg_get. rewrite Hdq. cbn [mbind outcome_bind].
  destruct (dok_get_ok _ _ j i Hinv Hj Hi) as [b Hb].
  destruct IH as [cs Hcs].
  { intros y Hy. apply Hsub. by right. }
  rewrite Hcs. destruct (k - 1 <=? dq); [rewrite Hb|];
    cbn [mbind outcome_bind]; eauto.
Qed.

Lemma all_adjacent_ok g x pairs :
  graph_inv g x →
  (∀ pr, pr ∈ pairs → length pr = 2%nat ∧ pr ⊆ prime_cands g) →
  ∃ b, all_adjacent g pairs = Ok b.
Proof.
  intros Hinv. induction pairs as [|pr pairs IH]; intros Hpairs; [by eexists|].
  cbn [all_adjacent].
  destruct (Hpairs pr) as [Hlen Hsub]; [by left|].
  destruct pr as [|p0 [|p1 [|? ?]]]; try done.
  cbn [item lookup list_lookup mbind outcome_bind].
  destruct (od_get_ok _ _ p0 Hinv) as (i0 & -> & Hi0); [apply Hsub; by left|].
  cbn [mbind outcome_bind].
  destruct (od_get_ok _ _ p1 Hinv) as (i1 & -> & Hi1);
    [apply Hsub; right; by left|].
  cbn [mbind outcome_bind].
  destruct (dok_get_ok _ _ i0 i1 Hinv Hi0 Hi1) as [[|] ->];
    cbn [mbind outcome_bind]; [|eauto].
  apply IH. intros pr Hpr. apply Hpairs. by right.
Qed.

Lemma combinations_pairs_ok g c pr :
  c ⊆ prime_cands g → pr ∈ combinations c 2 →
  length pr = 2%nat ∧ pr ⊆ prime_cands g.
Proof.
  intros Hc [Hlen Hsub]%combinations_spec. split; [done|].
  intros y Hy. apply Hc. by eapply elem_of_sublist.
Qed.

Lemma clique_loop_ok g x' x subsets best :
  graph_inv g x' → (∀ c, c ∈ subsets → c ⊆ prime_cands g) →
  ∃ r, clique_loop g x subsets best = Ok r.
Proof.
  intros Hinv. revert best.
  induction subsets as [|c subsets IH]; intros best Hsub; [by eexists|].
  cbn [clique_loop]. cbv zeta.
  destruct (all_adjacent_ok g x' (combinations c 2) Hinv) as [b ->].
  { intros pr. apply combinations_pairs_ok. apply Hsub. by left. }
  cbn [mbind outcome_bind].
  destruct (b && _); [eauto|].
  apply IH. intros c' Hc'. apply Hsub. by right.
Qed.

Lemma find_clique_ok k g x' x :
  graph_inv g x' → x ∈ prime_cands g → ∃ r, find_clique k x g = Ok r.
Proof.
  intros Hinv Hx. unfold find_clique.
  destruct (proj2 (inv_degrees _ _ Hinv x) Hx) as [dx Hdx].
  unfold deg_get at 1. rewrite Hdx. cbn [mbind outcome_bind].
  destruct (k - 1 <=? dx); [|eauto].
  destruct (od_get_ok _ _ x Hinv Hx) as (i & -> & Hi).
  cbn [mbind outcome_bind].
  destruct (clique_cands_ok k i g x' (prime_to_index g) Hinv Hi) as [cs Hcs];
    [done|].
  rewrite Hcs. cbn [mbind outcome_bind].
  apply (clique_loop_ok g x'); [done|].
  intros c [_ Hc]%combinations_spec y Hy.
  apply clique_cands_spec in Hcs as [Hcs _].
  rewrite (inv_index _ _ Hinv), index_items_fst in Hcs.
  eapply elem_of_sublist; [|done]. by eapply elem_of_sublist.
Qed.

Lemma iteration_ok k g x : graph_inv g x → ∃ r, iteration k x g = Ok r.
Proof.
  intros Hinv. unfold iteration. pose proof (inv_next _ _ Hinv).
  destruct (is_prime_ok x) as [[|] Hp]; [lia| |];
    rewrite Hp; cbn [mbind outcome_bind]; [|eauto].
  destruct (add_vertex_ok _ _ Hinv) as [g1 Hadd].
  rewrite Hadd. cbn [mbind outcome_bind].
  apply is_prime_true_prime in Hp; [|done].
  destruct (add_vertex_inv _ _ _ Hinv Hp Hadd) as (Hinv1 & _ & Hc).
  destruct (find_clique_ok k g1 (x + 1) x Hinv1) as [[o rest] Hr].
  { rewrite Hc. apply elem_of_app. right. by left. }
  rewrite Hr. cbn [mbind outcome_bind fst]. destruct o; eauto.
Qed.

Lemma main_loop_no_raise fuel k g x e :
  graph_inv g x → main_loop fuel k g x ≠ Some (Raise e).
Proof.
  revert g x. induction fuel as [|fuel IH]; intros g x Hinv; [done|].
  cbn [main_loop]. destruct (iteration_ok k g x Hinv) as [r Hr].
  rewrite Hr. destruct r as [r|g']; [done|].
  apply IH. by destruct (iteration_inv _ _ _ _ Hinv Hr).
Qed.

End NoRaise.

(** X8: the only exception [main] can raise is the [AssertionError] of
    its first line, on an argument that is not an integer above 1: no
    [KeyError], [IndexError] or [ValueError] ever comes out of the
    dictionaries, the matrix or [int]. *)
Theorem main_raises_only_its_assertion (fuel : nat) (v : value) (e : exn) :
  main fuel v = Some (Raise e) →
  e = AssertionError ∧ ∀ k, v = VInt k → k <= 1.
Proof.
  unfold main. destruct v as [k| | | |]; try (intros [= <-]; by split).
  destruct (Z.ltb_spec 1 k).
  - intros Hm. by apply main_loop_no_raise in Hm; [|apply init_graph_inv].
  - intros [= <-]. split; [done|]. by intros k' [= <-].
Qed.

Lemma main_raises_only_its_assertion_witness :
  AssertionError = AssertionError ∧ ∀ k, VInt 1 = VInt k → k <= 1.
Proof.
  apply (main_raises_only_its_assertion 3 (VInt 1) AssertionError).
  reflexivity.
Defined.

(** ** What the search finds *)

Section Completeness.

Lemma evolves_snoc k g0 x0 g x g' :
  evolves k g0 x0 g x → iteration k x g = Ok (Continue g') →
  evolves k g0 x0 g' (x + 1).
Proof.
  intros Hev Hit. induction Hev as [g x|g0 x0 g1 g x Hit0 Hev IH].
  - eapply evolves_step; [done|constructor].
  - eapply evolves_step; [done|]. by apply IH.
Qed.

Lemma iteration_continue_search k x g g' :
  iteration k x g = Ok (Continue g') → is_prime (VInt x) = Ok true →
  ∃ rest, find_clique k x g' = Ok (None, rest).
Proof.
  unfold iteration. intros Hit Hp. rewrite Hp in Hit.
  cbn [mbind outcome_bind] in Hit.
  apply bind_ok in Hit as (g1 & Hadd & ([o rest] & Hr & Hit)%bind_ok).
  destruct o; simplify_eq/=. by exists rest.
Qed.

Lemma clique_cands_complete k i g items cs q j dq :
  clique_cands k i g items = Ok cs → (q, j) ∈ items →
  prime_degrees g !! q = Some dq → k - 1 <= dq →
  dok_get (adj g) j i = Ok true → q ∈ cs.
Proof.
  revert cs. induction items as [|[q0 j0] items IH]; intros cs Hcs Hin Hdq Hk Hget.
  - inversion Hin.
  - cbn [clique_cands] in Hcs.
    apply bind_ok in Hcs as (dq0 & Hdq0 & (b & Hb & (rest & Hrest & [= <-])
      %bind_ok)%bind_ok).
    apply elem_of_cons in Hin as [[= -> ->]|Hin].
    + unfold deg_get in Hdq0. rewrite Hdq in Hdq0. injection Hdq0 as <-.
      destruct (Z.leb_spec (k - 1) dq); [|lia].
      rewrite Hget in Hb. injection Hb as <-. by left.
    + specialize (IH _ Hrest Hin Hdq Hk Hget). destruct b; [by right|done].
Qed.

Lemma all_adjacent_all g pairs :
  (∀ pr, pr ∈ pairs → ∃ p0 p1 i0 i1,
     pr = [p0; p1] ∧ od_get (prime_to_index g) p0 = Ok i0 ∧
     od_get (prime_to_index g) p1 = Ok i1 ∧
     dok_get (adj g) i0 i1 = Ok true) →
  all_adjacent g pairs = Ok true.
Proof.
  induction pairs as [|pr pairs IH]; intros Hall; [done|].
  destruct (Hall pr) as (p0 & p1 & i0 & i1 & -> & Hi0 & Hi1 & Hget);
    [by left|].
  cbn [all_adjacent item lookup list_lookup mbind outcome_bind].
  rewrite Hi0. cbn [mbind outcome_bind]. rewrite Hi1. cbn [mbind outcome_bind].
  rewrite Hget. cbn [mbind outcome_bind].
  apply IH. intros pr Hpr. apply Hall. by right.
Qed.

Section OnGraph.
Context (g : graph) (x' : Z).
Context (Hinv : graph_inv g x') (Hex : edges_exact g) (Hdeg : degrees_exact g).

Lemma cands_ge_2 p : p ∈ prime_cands g → 2 <= p.
Proof. intros [i Hi]%list_elem_of_lookup. by eapply cands_positive. Qed.

Lemma edge_get p q ip iq :
  od_get (prime_to_index g) p = Ok ip → od_get (prime_to_index g) q = Ok iq →
  p ≠ q → compatible p q → dok_get (adj g) ip iq = Ok true.
Proof.
  intros [Hip Hp]%(od_get_position _ _ _ _ Hinv)
         [Hiq Hq]%(od_get_position _ _ _ _ Hinv) Hne Hc.
  rewrite <- (Z2Nat.id ip), <- (Z2Nat.id iq) by done.
  rewrite (dok_get_exact _ _ _ _ _ _ Hinv Hex Hp Hq).
  pose proof (cands_positive _ _ _ _ Hinv Hp).
  pose proof (cands_positive _ _ _ _ Hinv Hq).
  rewrite compatible_concatable by (done || lia).
  rewrite bool_decide_eq_true_2; [done|].
  intros Heq. rewrite Heq in Hp. congruence.
Qed.

Lemma clique_degree c p :
  is_clique c → c ⊆ prime_cands g → p ∈ c →
  ∃ d, prime_degrees g !! p = Some d ∧ Z.of_nat (length c) - 1 <= d.
Proof.
  intros [Hnd Hcomp] Hsub Hp. eexists. split; [apply Hdeg; by apply Hsub|].
  assert (Hle : (length c <= length (p :: neighbours p (prime_cands g)))%nat).
  { apply submseteq_length, NoDup_submseteq; [done|].
    intros q Hq. destruct (decide (q = p)) as [->|Hne]; [by left|].
    right. apply list_elem_of_filter. split; [|by apply Hsub].
    pose proof (cands_ge_2 p (Hsub _ Hp)). pose proof (cands_ge_2 q (Hsub _ Hq)).
    apply compatible_concatable; [lia..|]. by apply Hcomp. }
  simpl in Hle. lia.
Qed.

Lemma search_none_no_clique k x rest c :
  1 < k → find_clique k x g = Ok (None, rest) →
  is_clique c → c ⊆ prime_cands g → Z.of_nat (length c) = k → x ∉ c.
Proof.
  intros Hk Hfind Hclique Hsub Hlen Hx.
  pose proof Hclique as [Hnd Hcomp].
  destruct (clique_degree c x Hclique Hsub Hx) as (dx & Hdx & Hdxk).
  revert Hfind. unfold find_clique, deg_get at 1. rewrite Hdx.
  cbn [mbind outcome_bind]. destruct (Z.leb_spec (k - 1) dx); [|lia].
  intros (i & Hi & (cs & Hcs & Hloop)%bind_ok)%bind_ok.
  apply clique_loop_none in Hloop.
  pose proof (clique_cands_spec _ _ _ _ _ Hcs) as [Hcs_sub Hcs_in].
  rewrite (inv_index _ _ Hinv), index_items_fst in Hcs_sub.
  assert (Hcs_nd : NoDup cs).
  { eapply sublist_NoDup; [apply (inv_nodup _ _ Hinv)|done]. }
  assert (Hx_cs : x ∉ cs).
  { intros (j & Hj & Hget)%Hcs_in. apply od_get_elem in Hi.
    by destruct (edge_compatible _ _ Hinv _ _ _ _ Hj Hi Hget). }
  assert (Hin_cs : ∀ q, q ∈ c → q ≠ x → q ∈ cs).
  { intros q Hq Hne.
    destruct (od_get_ok _ _ q Hinv (Hsub _ Hq)) as (j & Hj & _).
    destruct (clique_degree c q Hclique Hsub Hq) as (dq & Hdq & Hdqk).
    eapply clique_cands_complete;
      [done|by apply od_get_elem|done|lia|].
    apply (edge_get q x); [done..|]. by apply Hcomp. }
  set (c' := filter (fun q => q ∈ c) cs).
  assert (Hc'_in : ∀ q, q ∈ c' ↔ q ∈ c ∧ q ∈ cs)
    by (intros q; unfold c'; by rewrite list_elem_of_filter).
  assert (Hc'_sub : c' `sublist_of` cs) by apply sublist_filter.
  assert (Hc'_nd : NoDup c') by (by apply NoDup_filter).
  assert (Hperm : c ≡ₚ x :: c').
  { apply NoDup_Permutation; [done| |].
    - apply NoDup_cons. split; [|done]. rewrite Hc'_in. tauto.
    - intros q. rewrite elem_of_cons, Hc'_in. split.
      + intros Hq. destruct (decide (q = x)); [by left|right]. auto.
      + intros [->|[Hq _]]; done. }
  assert (Hc'_len : length c' = Z.to_nat (k - 1)).
  { apply Permutation_length in Hperm. simpl in Hperm. lia. }
  assert (Hc'_comb : c' ∈ combinations cs (Z.to_nat (k - 1))).
  { rewrite <- Hc'_len. by apply sublist_combinations. }
  assert (Hadj : all_adjacent g (combinations c' 2) = Ok true).
  { apply all_adjacent_all. intros pr [Hprlen Hprsub]%combinations_spec.
    destruct pr as [|p0 [|p1 [|? ?]]]; try done.
    assert (Hp0 : p0 ∈ c').
    { eapply elem_of_sublist; [|done]. by left. }
    assert (Hp1 : p1 ∈ c').
    { eapply elem_of_sublist; [|done]. right. by left. }
    assert (Hne : p0 ≠ p1).
    { assert (Hprnd : NoDup [p0; p1]) by (by eapply sublist_NoDup).
      apply NoDup_cons in Hprnd as [Hnot _]. intros ->. apply Hnot. by left. }
    apply Hc'_in in Hp0 as [Hp0 _]. apply Hc'_in in Hp1 as [Hp1 _].
    destruct (od_get_ok _ _ p0 Hinv (Hsub _ Hp0)) as (i0 & Hi0 & _).
    destruct (od_get_ok _ _ p1 Hinv (Hsub _ Hp1)) as (i1 & Hi1 & _).
    exists p0, p1, i0, i1. repeat (split; [done|]).
    apply (edge_get p0 p1); [done..|]. by apply Hcomp. }
  pose proof (proj1 (Forall_forall _ _) Hloop c' Hc'_comb) as Hfalse.
  cbn in Hfalse. congruence.
Qed.

End OnGraph.

Lemma iteration_no_clique_through k g x g' c :
  evolves k init_graph 7 g x → 1 < k →
  iteration k x g = Ok (Continue g') →
  is_clique c → c ⊆ prime_cands g' → Z.of_nat (length c) = k → x ∉ c.
Proof.
  intros Hev Hk Hit Hclique Hsub Hlen.
  destruct (exact_invariant _ _ _ (evolves_snoc _ _ _ _ _ _ Hev Hit))
    as (Hinv' & Hex' & Hdeg').
  destruct (exact_invariant _ _ _ Hev) as (Hinv & _ & _).
  pose proof Hit as [[_ ->]|[Hp _]]%iteration_continue.
  - intros Hx. by apply (graph_inv_fresh _ _ Hinv), Hsub.
  - destruct (iteration_continue_search _ _ _ _ Hit Hp) as [rest Hfind].
    by eapply (search_none_no_clique g' (x + 1)).
Qed.

Lemma iteration_cands k g x g' :
  graph_inv g x → iteration k x g = Ok (Continue g') →
  ∀ p, p ∈ prime_cands g' → p ∈ prime_cands g ∨ p = x.
Proof.
  intros Hinv [[_ ->]|[Hp Hadd]]%iteration_continue p Hin; [by left|].
  apply is_prime_true_prime in Hp; [|by destruct Hinv].
  destruct (add_vertex_inv _ _ _ Hinv Hp Hadd) as (_ & _ & Hc).
  rewrite Hc in Hin.
  apply elem_of_app in Hin as [?|?%list_elem_of_singleton]; auto.
Qed.

Lemma no_clique_while_running k g x :
  1 < k → evolves k init_graph 7 g x →
  ∀ c, is_clique c → c ⊆ prime_cands g → Z.of_nat (length c) ≠ k.
Proof.
  intros Hk Hev.
  assert (H : evolves k init_graph 7 g x ∧
    ∀ c, is_clique c → c ⊆ prime_cands g → Z.of_nat (length c) ≠ k);
    [|by destruct H].
  revert Hev. apply (evolves_preserves (fun g x =>
    evolves k init_graph 7 g x ∧
    ∀ c, is_clique c → c ⊆ prime_cands g → Z.of_nat (length c) ≠ k)).
  - clear g x. intros g x g' [Hev Hno] Hit.
    split; [by eapply evolves_snoc|].
    intros c Hclique Hsub Hlen.
    pose proof (iteration_no_clique_through _ _ _ _ _ Hev Hk Hit
                  Hclique Hsub Hlen) as Hx.
    destruct (exact_invariant _ _ _ Hev) as (Hinv & _ & _).
    apply (Hno c); [done| |done].
    intros p Hp.
    destruct (iteration_cands _ _ _ _ Hinv Hit p (Hsub _ Hp)) as [?| ->];
      done.
  - split; [constructor|].
    intros c [Hnd _] Hsub Hlen.
    assert (length c <= length (prime_cands init_graph))%nat
      by (by apply submseteq_length, NoDup_submseteq).
    simpl in *. lia.
Qed.

Lemma clique_other (c : list Z) (p : Z) :
  NoDup c → (2 <= length c)%nat → p ∈ c → ∃ q, q ∈ c ∧ q ≠ p.
Proof.
  intros Hnd Hlen Hp. destruct c as [|a [|b c]]; simpl in Hlen; try lia.
  apply NoDup_cons in Hnd as [Hab _].
  destruct (decide (p = a)) as [->|Hne].
  - exists b. split; [right; by left|]. intros ->. apply Hab. by left.
  - exists a. split; [by left|done].
Qed.

Lemma clique_avoids_2_and_5 (c : list Z) (p : Z) :
  is_clique c → Forall Z.prime c → (2 <= length c)%nat → p ∈ c →
  p ≠ 2 ∧ p ≠ 5.
Proof.
  intros [Hnd Hcomp] Hprime Hlen Hp.
  destruct (clique_other c p Hnd Hlen Hp) as (q & Hq & Hne).
  assert (Hq2 : 2 <= q).
  { apply Z.prime_ge_2. by eapply Forall_forall. }
  assert (Hp2 : 2 <= p).
  { apply Z.prime_ge_2. by eapply Forall_forall. }
  assert (Hc : concatable p q = true)
    by (apply compatible_concatable; [lia..|]; by apply Hcomp).
  destruct (two_five_incompatible q) as (_ & H2 & _ & H5); [lia|].
  unfold concatable in Hc.
  split; intros ->; [by rewrite H2 in Hc|by rewrite H5 in Hc].
Qed.

Lemma small_primes p : Z.prime p → p < 7 → p = 2 ∨ p = 3 ∨ p = 5.
Proof.
  intros Hp Hlt. pose proof (Z.prime_ge_2 _ Hp) as Hge.
  destruct Hp as [_ Hp].
  assert (p = 2 ∨ p = 3 ∨ p = 4 ∨ p = 5 ∨ p = 6) as [->|[->|[->|[->| ->]]]]
    by lia; auto.
  - exfalso. apply (Hp 2); [lia|]. by exists 2.
  - exfalso. apply (Hp 2); [lia|]. by exists 3.
Qed.

Lemma clique_3_7 : is_clique [3; 7].
Proof.
  split.
  - apply NoDup_cons. split; [|apply NoDup_singleton].
    by intros ?%list_elem_of_singleton.
  - intros p q [->|[->|Hp]%elem_of_cons]%elem_of_cons
               [->|[->|Hq]%elem_of_cons]%elem_of_cons Hne;
      try done; try (by inversion Hp); try (by inversion Hq);
      by apply concatable_compatible.
Qed.

End Completeness.

(** X9: what [find_clique] returns is built from the first combination,
    in the order of [itertools.combinations], whose members are
    pairwise adjacent: the combinations before it are not cliques and
    those after it are never read. *)
Theorem search_returns_the_first_clique
    (k x : Z) (g : graph) (l : list Z) (s : Z) (rest : list (list Z)) :
  find_clique k x g = Ok (Some (l, s), rest) →
  ∃ i cs before c,
    od_get (prime_to_index g) x = Ok i ∧
    clique_cands k i g (prime_to_index g) = Ok cs ∧
    combinations cs (Z.to_nat (k - 1)) = before ++ c :: rest ∧
    Forall (fun c' => all_adjacent g (combinations c' 2) = Ok false) before ∧
    all_adjacent g (combinations c 2) = Ok true ∧
    l = c ++ [x] ∧ s = sum l.
Proof.
  unfold find_clique. intros (dx & Hdx & H)%bind_ok.
  destruct (k - 1 <=? dx); [|done].
  apply bind_ok in H as (i & Hi & (cs & Hcs & H)%bind_ok).
  apply clique_loop_first in H as (before & c & Hsplit & Hb & Hadj & Hl & Hs).
  by exists i, cs, before, c.
Qed.

Lemma search_returns_the_first_clique_witness :
  ∃ g, add_vertex 7 init_graph = Ok g ∧
  ∃ i cs before c,
    od_get (prime_to_index g) 7 = Ok i ∧
    clique_cands 2 i g (prime_to_index g) = Ok cs ∧
    combinations cs (Z.to_nat (2 - 1)) = before ++ c :: [] ∧
    Forall (fun c' => all_adjacent g (combinations c' 2) = Ok false) before ∧
    all_adjacent g (combinations c 2) = Ok true ∧
    [3; 7] = c ++ [7] ∧ 10 = sum [3; 7].
Proof.
  destruct (add_vertex 7 init_graph) as [g|] eqn:E;
    [|vm_compute in E; discriminate].
  vm_compute in E. injection E as <-.
  eexists. split; [reflexivity|].
  apply (search_returns_the_first_clique 2 7 _ [3; 7] 10 []).
  vm_compute. reflexivity.
Defined.

(** X10: the search misses nothing: on a graph built by the loop, if
    [find_clique] for [k] and [x] returns nothing, then no [k] pairwise
    compatible candidates include [x]. *)
Theorem search_misses_no_clique
    (k0 k : Z) (g : graph) (x' x : Z) (rest : list (list Z)) (c : list Z) :
  evolves k0 init_graph 7 g x' → 1 < k →
  find_clique k x g = Ok (None, rest) →
  is_clique c → c ⊆ prime_cands g → Z.of_nat (length c) = k → x ∉ c.
Proof.
  intros Hev. destruct (exact_invariant _ _ _ Hev) as (Hinv & Hex & Hdeg).
  by apply (search_none_no_clique g x').
Qed.

Lemma search_misses_no_clique_witness :
  ∃ g, advance 7 4 init_graph 7 = Some (g, 14) ∧ 13 ∉ [3; 7].
Proof.
  destruct (advance 7 4 init_graph 7) as [[g x]|] eqn:E;
    [|vm_compute in E; discriminate].
  pose proof (advance_evolves _ _ _ _ _ _ E) as Hev.
  vm_compute in E. injection E as <- <-.
  eexists. split; [reflexivity|].
  apply (search_misses_no_clique 4 2 _ 14 13 [] [3; 7] Hev);
    [lia| |apply clique_3_7| |done].
  - vm_compute. reflexivity.
  - intros p [->|[->|Hp]%elem_of_cons]%elem_of_cons;
      [by left|right; by left|inversion Hp].
Defined.

(** X11: as long as [main k] has not returned, no [k] of the candidates
    are pairwise compatible. *)
Theorem no_clique_before_return (k : Z) (g : graph) (x : Z) (c : list Z) :
  1 < k → evolves k init_graph 7 g x →
  is_clique c → c ⊆ prime_cands g → Z.of_nat (length c) ≠ k.
Proof. intros Hk Hev. by apply (no_clique_while_running k g x). Qed.

Lemma no_clique_before_return_witness :
  ∃ g, advance 5 4 init_graph 7 = Some (g, 12) ∧
       Z.of_nat (length [3; 7]) ≠ 4.
Proof.
  destruct (advance 5 4 init_graph 7) as [[g x]|] eqn:E;
    [|vm_compute in E; discriminate].
  pose proof (advance_evolves _ _ _ _ _ _ E) as Hev.
  vm_compute in E. injection E as <- <-.
  eexists. split; [reflexivity|].
  eapply (no_clique_before_return 4 _ 12 [3; 7]);
    [lia|exact Hev|apply clique_3_7|].
  intros p [->|[->|Hp]%elem_of_cons]%elem_of_cons;
    [by left|right; by left|inversion Hp].
Defined.

(** X12: the list [main k] returns ends with its largest member [x], and
    every set of [k] pairwise compatible primes has a member that is at
    least [x]: the largest prime of the result is the least possible. *)
Theorem main_result_has_least_maximum
    (fuel : nat) (k : Z) (l : list Z) (s : Z) :
  1 < k → main fuel (VInt k) = Some (Ok (l, s)) →
  ∃ c0 x, l = c0 ++ [x] ∧ (∀ p, p ∈ l → p <= x) ∧
    ∀ c, is_clique c → Forall Z.prime c → Z.of_nat (length c) = k →
         ∃ p, p ∈ c ∧ x <= p.
Proof.
  intros Hk. unfold main. destruct (Z.ltb_spec 1 k); [|lia].
  intros (g & x & Hev & Hret)%main_loop_evolves.
  destruct (evolves_inv _ _ _ _ _ init_graph_inv Hev) as [Hinv _].
  apply iteration_return in Hret as (g1 & rest & Hp & Hadd & Hfind).
  apply is_prime_true_prime in Hp; [|by destruct Hinv].
  destruct (add_vertex_inv _ _ _ Hinv Hp Hadd) as (Hinv1 & _ & Hc1).
  destruct (find_clique_sound _ _ Hinv1 _ _ _ _ _ Hk Hfind)
    as (_ & _ & Hsub & _ & _).
  assert (∃ c0, l = c0 ++ [x]) as [c0 Hl].
  { revert Hfind. unfold find_clique. intros (dx & _ & Hf)%bind_ok.
    destruct (k - 1 <=? dx); [|done].
    apply bind_ok in Hf as (i & _ & (cs & _ & Hf)%bind_ok).
    apply clique_loop_first in Hf as (_ & c0 & _ & _ & _ & Hl & _).
    by exists c0. }
  exists c0, x. split; [done|]. split.
  { intros p Hin. apply Hsub in Hin. rewrite Hc1 in Hin.
    apply elem_of_app in Hin as [Hin|Hin%list_elem_of_singleton]; [|lia].
    pose proof (proj1 (Forall_forall _ _) (inv_below _ _ Hinv) p Hin) as Hlt.
    cbn in Hlt. lia. }
  intros c Hclique Hprime Hlen.
  destruct (decide (Exists (fun p => x <= p) c)) as [Hex|Hnex].
  { apply Exists_exists in Hex as (p & ? & ?). by exists p. }
  exfalso. apply (no_clique_while_running k g x Hk Hev c Hclique); [|done].
  intros p Hin.
  apply (cands_mem k g x); [done|].
  assert (Hpp : Z.prime p) by (by eapply Forall_forall).
  assert (Hlt : p < x).
  { destruct (Z_lt_le_dec p x); [done|]. exfalso. apply Hnex.
    apply Exists_exists. by exists p. }
  destruct (clique_avoids_2_and_5 c p Hclique Hprime) as [Hn2 Hn5];
    [lia|done|].
  destruct (Z_lt_le_dec p 7) as [Hsmall|Hbig]; [left|by right].
  destruct (small_primes p Hpp Hsmall) as [?|[?|?]]; done.
Qed.

Lemma main_result_has_least_maximum_witness :
  ∃ c0 x, [3; 7] = c0 ++ [x] ∧ (∀ p, p ∈ [3; 7] → p <= x) ∧
    ∀ c, is_clique c → Forall Z.prime c → Z.of_nat (length c) = 2 →
         ∃ p, p ∈ c ∧ x <= p.
Proof.
  apply (main_result_has_least_maximum 1 2 [3; 7] 10); [lia|].
  vm_compute. reflexivity.
Defined.


